(** * MergeReceiveExecutor: the merge stage of a distributed ORDER BY

    A shallow embedding of [src/ee/executors/mergereceiveexecutor.cpp]
    (VoltDB): [min_tuple_range], [merge_sort] and the loading loop of
    [MergeReceiveExecutor::p_execute], followed by the properties of the
    specification that can be stated on them.

    Conventions of the embedding.
    - A [TableTuple] is a value of an abstract type [T]; the [TupleComparer]
      is a boolean function [comp] on [T].
    - [std::vector<TableTuple>] is a [list T]; a [tuple_iterator] into it is
      its index, a [Z]; dereferencing an index outside the vector is
      undefined behaviour in C++ and is the failure [BadDereference] here.
    - [std::list<tuple_range>] is a list of pairs of indices; a
      [range_iterator] into it is a position, a [nat].
    - [int] is a [Z] in the 32-bit signed range, [size_t] a [Z] modulo 2^64.
    - [assert] is executed (a build without NDEBUG): a failing assertion
      ends the run with a failure naming the assertion.
    - [insertTupleNonVirtual] appends to the output table and
      [countdownProgress] counts one unit; neither throws (no memory limit
      is hit, the host does not cancel).
    - [while (true)] and the inner [while] of the fast path are given fuel;
      the termination theorem shows that [length tuples + 2] is enough. *)

From Stdlib Require Import ZArith Lia Sorted Permutation.
From stdpp Require Import base numbers list strings.

Local Open Scope Z_scope.

(** ** Machine integers *)

Definition INT_MAX : Z := 2147483647.

(** Conversion of an integer value to [int] (two's complement, 32 bits). *)
Definition to_int (z : Z) : Z := (z + 2 ^ 31) mod 2 ^ 32 - 2 ^ 31.

(** [size_t] arithmetic: the value of [size()] and the decrement [--n]. *)
Definition size_t_of_nat (n : nat) : Z := Z.of_nat n mod 2 ^ 64.
Definition size_t_dec (n : Z) : Z := (n - 1) mod 2 ^ 64.

(** ** Outcomes of a run *)

Inductive failure : Set :=
| AssertPartitionsNotEmpty   (* min_tuple_range: assert(!partitions.empty()) *)
| AssertRangeNotExhausted    (* min_tuple_range: assert(rangeIt->first != rangeIt->second) *)
| AssertLastEnd              (* merge_sort: assert(i != n - 1 || end == tuples.end()) *)
| BadDereference             (* an iterator dereferenced outside its container *)
| SignedOverflow.            (* ++ on an int that holds INT_MAX *)

Inductive outcome (A : Type) : Type :=
| Returned (a : A)
| Failed (f : failure)
| OutOfFuel.

Arguments Returned {A} a.
Arguments Failed {A} f.
Arguments OutOfFuel {A}.

#[global] Instance outcome_bind : MBind outcome := λ A B k m,
  match m with
  | Returned a => k a
  | Failed f => Failed f
  | OutOfFuel => OutOfFuel
  end.

Arguments outcome_bind {A B} k !m /.

Abbreviation tuple_iterator := Z (only parsing).
Abbreviation tuple_range := (Z * Z)%type (only parsing).

(** rangeIt->first == rangeIt->second *)
Definition exhausted (r : tuple_range) : bool := r.1 =? r.2.

(** ++r.first *)
Definition advance (r : tuple_range) : tuple_range := (r.1 + 1, r.2).

(** The local variables of [merge_sort] that live across the loop, with
    the rows inserted in [output_table] and the number of calls of
    [pmp.countdownProgress()]. *)
Record merge_state (T : Type) : Type := MergeState {
  partitions : list tuple_range;
  nonEmptyPartitions : Z;
  tupleCnt : Z;
  tupleSkipped : Z;
  output_table : list T;
  pmp : nat
}.

Arguments MergeState {T}.
Arguments partitions {T}.
Arguments nonEmptyPartitions {T}.
Arguments tupleCnt {T}.
Arguments tupleSkipped {T}.
Arguments output_table {T}.
Arguments pmp {T}.

Section MergeReceive.

Context {T : Type}.
Variable comp : T → T → bool.

(** *it for a [tuple_iterator] of the vector [tuples]. *)
Definition deref (tuples : list T) (it : tuple_iterator) : outcome T :=
  if 0 <=? it then
    match tuples !! Z.to_nat it with
    | Some t => Returned t
    | None => Failed BadDereference
    end
  else Failed BadDereference.

(** The [for] loop of [min_tuple_range]: [rest] is what lies from [rangeIt]
    to the end of the list, [i] the position of [rangeIt], [smallest] the
    position of [smallest_range] and [sr] the range it points to. *)
Fixpoint min_tuple_range_scan (tuples : list T) (rest : list tuple_range)
    (i smallest : nat) (sr : tuple_range) : outcome nat :=
  match rest with
  | [] => Returned smallest
  | r :: rest' =>
      if exhausted r then Failed AssertRangeNotExhausted
      else
        a ← deref tuples r.1;
        b ← deref tuples sr.1;
        if comp a b then min_tuple_range_scan tuples rest' (S i) i r
        else min_tuple_range_scan tuples rest' (S i) smallest sr
  end.

Definition min_tuple_range (tuples : list T) (partitions : list tuple_range)
    : outcome nat :=
  match partitions with
  | [] => Failed AssertPartitionsNotEmpty
  | r :: rest => min_tuple_range_scan tuples rest 1%nat 0%nat r
  end.

(** The loop that carves the vector into ranges: returns the ranges and the
    last value of [begin]. *)
Fixpoint build_partitions (begin : tuple_iterator) (counts : list Z)
    : list tuple_range * tuple_iterator :=
  match counts with
  | [] => ([], begin)
  | c :: counts' =>
      let end_ := begin + c in
      let '(ps, last) := build_partitions end_ counts' in
      ((begin, end_) :: ps, last)
  end.

(** "remove partitions that are empty": the inner [while] with [erase]. *)
Fixpoint erase_exhausted (ps : list tuple_range) (n : Z) : list tuple_range * Z :=
  match ps with
  | [] => ([], n)
  | r :: ps' =>
      if exhausted r then erase_exhausted ps' (size_t_dec n)
      else let '(ps'', n') := erase_exhausted ps' n in (r :: ps'', n')
  end.

(** The fast path: "copy the remaining tuples to the output". *)
Fixpoint drain (fuel : nat) (tuples : list T) (limit offset : Z)
    (st : merge_state T) : outcome (merge_state T) :=
  match fuel with
  | O => OutOfFuel
  | S fuel' =>
      match partitions st with
      | [] => Failed BadDereference
      | r :: rest =>
          if negb (exhausted r) && ((limit =? -1) || (tupleCnt st <? limit)) then
            tuple ← deref tuples r.1;
            if tupleSkipped st =? INT_MAX then Failed SignedOverflow
            else
              let skipped := tupleSkipped st in
              let st' := MergeState (advance r :: rest) (nonEmptyPartitions st)
                           (tupleCnt st) (skipped + 1) (output_table st) (pmp st) in
              if skipped <? offset then drain fuel' tuples limit offset st'
              else
                drain fuel' tuples limit offset
                  (MergeState (partitions st') (nonEmptyPartitions st')
                     (tupleCnt st') (tupleSkipped st')
                     (output_table st' ++ [tuple]) (S (pmp st')))
          else Returned st
      end
  end.

(** Lines 143-150: select with [min_tuple_range], insert the tuple, count
    down, advance the iterator of the selected range. *)
Definition select_and_emit (tuples : list T) (st : merge_state T)
    : outcome (merge_state T) :=
  minRangeIt ← min_tuple_range tuples (partitions st);
  match partitions st !! minRangeIt with
  | None => Failed BadDereference
  | Some r =>
      tuple ← deref tuples r.1;
      Returned (MergeState (alter advance minRangeIt (partitions st))
                  (nonEmptyPartitions st) (tupleCnt st) (tupleSkipped st)
                  (output_table st ++ [tuple]) (S (pmp st)))
  end.

(** The erase pass at the head of every iteration of [while (true)]. *)
Definition erase_pass (st : merge_state T) : merge_state T :=
  let '(ps, n) := erase_exhausted (partitions st) (nonEmptyPartitions st) in
  MergeState ps n (tupleCnt st) (tupleSkipped st) (output_table st) (pmp st).

(** [while (true)] *)
Fixpoint merge_loop (fuel : nat) (tuples : list T) (limit offset : Z)
    (st : merge_state T) : outcome (merge_state T) :=
  match fuel with
  | O => OutOfFuel
  | S fuel' =>
      let st1 := erase_pass st in
      if nonEmptyPartitions st1 =? 1 then drain fuel' tuples limit offset st1
      else
        st2 ← select_and_emit tuples st1;
        merge_loop fuel' tuples limit offset st2
  end.

Definition initial_state (ps : list tuple_range) (n : Z) : merge_state T :=
  MergeState ps n 0 0 [] 0%nat.

Definition merge_sort (fuel : nat) (tuples : list T) (partitionTupleCounts : list Z)
    (limit offset : Z) : outcome (merge_state T) :=
  match partitionTupleCounts with
  | [] => Returned (initial_state [] 0)
  | _ =>
      let '(ps, last) := build_partitions 0 partitionTupleCounts in
      if last =? Z.of_nat (length tuples) then
        merge_loop fuel tuples limit offset
          (initial_state ps (size_t_of_nat (length partitionTupleCounts)))
      else Failed AssertLastEnd
  end.

(** ** The loading loop of [MergeReceiveExecutor::p_execute] *)

(** Modelled from the spec: [VoltDBEngine::loadNextDependency] is not in
    src/. The specification ("fetch_next_batch", sections 4.2 and 6) says
    that a call appends the rows of the next batch, if any, to the
    destination table and tells whether loading goes on; the loop of the
    source goes on while the returned [int] is positive. The engine is
    therefore a script of replies, each the value returned and the rows
    appended by one call; when the script is over a call returns 0 and
    appends nothing. *)
Definition loadNextDependency (engine : list (Z * list T)) (table : list T)
    : Z * list (Z * list T) * list T :=
  match engine with
  | [] => (0, [], table)
  | (loaded, batch) :: engine' => (loaded, engine', table ++ batch)
  end.

(** The [do ... while (loadedDeps > 0)] loop. [currentTupleCount] is an
    [int]; the subtraction is done on [int64_t], where two [int] values
    cannot overflow. [m_tmpInputTable] is empty when [p_execute] starts
    ([cleanupInputTempTable] empties it at the end of every execution). *)
Fixpoint load_loop (fuel : nat) (engine : list (Z * list T)) (m_tmpInputTable : list T)
    (previousTupleCount : Z) (partitionTupleCounts : list Z)
    : outcome (list T * list Z) :=
  match fuel with
  | O => OutOfFuel
  | S fuel' =>
      let '(loadedDeps, engine', table') := loadNextDependency engine m_tmpInputTable in
      let currentTupleCount := to_int (Z.of_nat (length table')) in
      let '(counts', previous') :=
        if negb (currentTupleCount =? previousTupleCount)
        then (partitionTupleCounts ++ [currentTupleCount - previousTupleCount],
              currentTupleCount)
        else (partitionTupleCounts, previousTupleCount) in
      if 0 <? loadedDeps then load_loop fuel' engine' table' previous' counts'
      else Returned (table', counts')
  end.

(** The batches that the calls of the loading loop append, in order: the
    loop stops after the first reply that is not positive. *)
Fixpoint delivered (engine : list (Z * list T)) : list (list T) :=
  match engine with
  | [] => []
  | (loaded, batch) :: engine' =>
      batch :: (if 0 <? loaded then delivered engine' else [])
  end.

(** [p_execute]: [m_limit_node] is the pair (limit, offset) that
    [getLimitAndOffsetByReference] yields, when there is an inlined limit
    node. The result is the content of [m_tmpOutputTable] and the number
    of countdowns (one per tuple unloaded into [xs], then those of
    [merge_sort]). *)
Definition p_execute (fuel : nat) (m_limit_node : option (Z * Z))
    (engine : list (Z * list T)) : outcome (list T * nat) :=
  let '(limit, offset) :=
    match m_limit_node with
    | Some lo => lo
    | None => (-1, 0)
    end in
  '(xs, partitionTupleCounts) ← load_loop fuel engine [] 0 [];
  st ← merge_sort fuel xs partitionTupleCounts limit offset;
  Returned (output_table st, (length xs + pmp st)%nat).

(** ** The general k-way path of the specification

    The second definition of the single-partition equivalence: the loop of
    section 4.3 of the specification with the fast path (step 2c) left out.
    Step 2a removes the exhausted partitions, step 2b stops when none is
    left, steps 2d and 2e select with [min_tuple_range], emit the row and
    advance the cursor, as lines 143-150 of the source do. *)
Fixpoint spec_kway_loop (fuel : nat) (tuples : list T) (ps : list tuple_range)
    (out : list T) : outcome (list T) :=
  match fuel with
  | O => OutOfFuel
  | S fuel' =>
      match filter (λ r : tuple_range, r.1 ≠ r.2) ps with
      | [] => Returned out
      | ps1 =>
          m ← min_tuple_range tuples ps1;
          match ps1 !! m with
          | None => Failed BadDereference
          | Some r =>
              tuple ← deref tuples r.1;
              spec_kway_loop fuel' tuples (alter advance m ps1) (out ++ [tuple])
          end
      end
  end.

Definition spec_kway_merge (fuel : nat) (tuples : list T) (counts : list Z)
    : outcome (list T) :=
  spec_kway_loop fuel tuples (build_partitions 0 counts).1 [].

(** ** What the properties are stated with *)

(** [a] is not after [b]: [b] does not compare less than [a]. *)
Definition le (a b : T) : Prop := comp b a = false.

(** The comparator is a strict weak ordering. *)
Definition strict_weak_order : Prop :=
  (∀ a, comp a a = false) ∧
  (∀ a b c, comp a b = true → comp b c = true → comp a c = true) ∧
  (∀ a b c, comp a b = false → comp b c = false → comp a c = false).

(** The row at the cursor of [r] does not compare less than [x]; [x]
    compares less than the row at the cursor of [r]. *)
Definition head_not_less (tuples : list T) (x : T) (r : tuple_range) : Prop :=
  ∀ y, deref tuples r.1 = Returned y → comp y x = false.
Definition head_greater (tuples : list T) (x : T) (r : tuple_range) : Prop :=
  ∀ y, deref tuples r.1 = Returned y → comp x y = true.

(** A range [cursor, end) that lies inside the vector. *)
Definition wf_range (tuples : list T) (r : tuple_range) : Prop :=
  0 <= r.1 ∧ r.1 <= r.2 ∧ r.2 <= Z.of_nat (length tuples).

(** A range that the selection may read: not exhausted, inside the vector. *)
Definition live_range (tuples : list T) (r : tuple_range) : Prop :=
  exhausted r = false ∧ wf_range tuples r.

(** The rows of a range that are still to be consumed, and those of a
    list of ranges. *)
Definition slice (tuples : list T) (r : tuple_range) : list T :=
  take (Z.to_nat (r.2 - r.1)) (drop (Z.to_nat r.1) tuples).

Definition remaining (tuples : list T) (ps : list tuple_range) : list T :=
  concat (slice tuples <$> ps).

(** The sum of the entries of a Boundary List. *)
Definition sum_counts (counts : list Z) : Z := foldr Z.add 0 counts.

(** What holds of the state at the head of every iteration of
    [while (true)], on a well-formed input. *)
Definition loop_invariant (tuples : list T) (st : merge_state T) : Prop :=
  Forall (wf_range tuples) (partitions st) ∧
  nonEmptyPartitions st = size_t_of_nat (length (partitions st)) ∧
  Z.of_nat (length (partitions st)) < 2 ^ 64 ∧
  remaining tuples (partitions st) ≠ [].

(** A Boundary List as the loader builds it for the vector [tuples]. *)
Definition well_formed_input (tuples : list T) (counts : list Z) : Prop :=
  Forall (λ c, 0 < c) counts ∧
  sum_counts counts = Z.of_nat (length tuples) ∧
  Z.of_nat (length tuples) <= INT_MAX.

(** The partitions a Boundary List stands for. *)
Fixpoint split_by_counts (tuples : list T) (counts : list Z) : list (list T) :=
  match counts with
  | [] => []
  | c :: counts' =>
      take (Z.to_nat c) tuples :: split_by_counts (drop (Z.to_nat c) tuples) counts'
  end.

(** The rows consumed so far: those no range still holds. *)
Definition consumed (tuples : list T) (st : merge_state T) : Z :=
  Z.of_nat (length tuples) - sum_counts ((λ r : tuple_range, r.2 - r.1) <$> partitions st).

(** The states at the head of an iteration of [while (true)], from [st0]. *)
Inductive loop_head (tuples : list T) (st0 : merge_state T) : merge_state T → Prop :=
| loop_head_first : loop_head tuples st0 st0
| loop_head_next st st2 :
    loop_head tuples st0 st →
    nonEmptyPartitions (erase_pass st) ≠ 1 →
    select_and_emit tuples (erase_pass st) = Returned st2 →
    loop_head tuples st0 st2.

Definition assertion_of_min_tuple_range (f : failure) : Prop :=
  f = AssertPartitionsNotEmpty ∨ f = AssertRangeNotExhausted.

End MergeReceive.

(** ** The comparators of the scenarios of the specification *)

(** Ascending order on a single integer key. *)
Definition ascending : Z → Z → bool := Z.ltb.

(** Rows of two fields, compared on the first one only. *)
Definition first_field_ascending (a b : Z * string) : bool := a.1 <? b.1.

(** ** Rows that carry the number of their partition

    To say from which partition a row of the output comes, the rows are
    paired with the registration number of their partition; the comparator
    does not look at the number, so the run is the run on the bare rows. *)

(** The partitions [parts], each row paired with the registration number
    of its partition, counted from [k]. *)
Fixpoint registered {T : Type} (k : nat) (parts : list (list T)) : list (list (T * nat)) :=
  match parts with
  | [] => []
  | p :: parts' => ((λ x, (x, k)) <$> p) :: registered (S k) parts'
  end.

(** [comp] on rows that carry a partition number. *)
Definition on_row {T : Type} (comp : T → T → bool) (a b : T * nat) : bool :=
  comp a.1 b.1.

(** [comp], and among rows that compare equal the partition number. *)
Definition then_by_partition {T : Type} (comp : T → T → bool) (a b : T * nat) : bool :=
  comp a.1 b.1 || (negb (comp b.1 a.1) && (a.2 <? b.2)%nat).

(** Every row still held by [r] has a smaller partition number than every
    row still held by [r']; a list of partitions is in registration order
    when this holds of any two of its ranges, the earlier one first. *)
Definition registered_before {T : Type} (tuples : list (T * nat)) (r r' : Z * Z) : Prop :=
  ∀ a b, a ∈ slice tuples r → b ∈ slice tuples r' → (a.2 < b.2)%nat.

Definition in_registration_order {T : Type} (tuples : list (T * nat))
    (ps : list (Z * Z)) : Prop :=
  StronglySorted (registered_before tuples) ps.

(** The state and the outcome of a run on rows [f x] in place of [x]. *)
Definition map_state {A B : Type} (f : A → B) (st : merge_state A) : merge_state B :=
  MergeState (partitions st) (nonEmptyPartitions st) (tupleCnt st) (tupleSkipped st)
    (f <$> output_table st) (pmp st).

Definition map_outcome {A B : Type} (f : A → B) (o : outcome A) : outcome B :=
  match o with
  | Returned a => Returned (f a)
  | Failed e => Failed e
  | OutOfFuel => OutOfFuel
  end.

(** * Properties *)

(** ** Machine integers *)

Lemma to_int_small (z : Z) : - 2 ^ 31 <= z <= INT_MAX → to_int z = z.
Proof.
  unfold to_int, INT_MAX. intros Hz.
  rewrite Z.mod_small by lia. lia.
Qed.

Lemma size_t_of_nat_small (n : nat) :
  Z.of_nat n < 2 ^ 64 → size_t_of_nat n = Z.of_nat n.
Proof. intros Hn. unfold size_t_of_nat. apply Z.mod_small. lia. Qed.

Lemma size_t_dec_of_nat (n : nat) :
  size_t_dec (size_t_of_nat (S n)) = size_t_of_nat n.
Proof.
  unfold size_t_dec, size_t_of_nat.
  rewrite Zminus_mod_idemp_l. f_equal. lia.
Qed.

Lemma size_t_of_nat_one (n : nat) :
  n ≠ 0%nat → size_t_of_nat n ≠ 1 → (2 <= n)%nat.
Proof.
  intros Hn H1. destruct (decide (n = 1%nat)) as [->|]; [|lia].
  exfalso. apply H1. reflexivity.
Qed.

(** ** Outcomes *)

Lemma bind_Returned {A B} (m : outcome A) (k : A → outcome B) (b : B) :
  m ≫= k = Returned b → ∃ a, m = Returned a ∧ k a = Returned b.
Proof. destruct m; simpl; intros H; try discriminate. eauto. Qed.

Lemma bind_Failed {A B} (m : outcome A) (k : A → outcome B) (f : failure) :
  m ≫= k = Failed f → m = Failed f ∨ ∃ a, m = Returned a ∧ k a = Failed f.
Proof.
  destruct m as [a|f'|]; simpl; intros H; try discriminate.
  - right. eauto.
  - left. congruence.
Qed.

Section Facts.

Context {T : Type}.
Variable comp : T → T → bool.
Variable tuples : list T.

Implicit Types (r : tuple_range) (ps : list tuple_range) (st : merge_state T).

(** ** Ranges and the rows they hold *)

Lemma exhausted_true r : exhausted r = true ↔ r.1 = r.2.
Proof. unfold exhausted. apply Z.eqb_eq. Qed.

Lemma exhausted_false r : exhausted r = false ↔ r.1 ≠ r.2.
Proof. unfold exhausted. apply Z.eqb_neq. Qed.

Lemma slice_exhausted r : exhausted r = true → slice tuples r = [].
Proof.
  rewrite exhausted_true. unfold slice. intros ->.
  by rewrite Z.sub_diag.
Qed.

Lemma slice_length r :
  wf_range tuples r → Z.of_nat (length (slice tuples r)) = r.2 - r.1.
Proof.
  unfold wf_range, slice. intros (H0 & H1 & H2).
  rewrite length_take, length_drop. lia.
Qed.

Lemma slice_head r :
  wf_range tuples r → exhausted r = false →
  ∃ x, deref tuples r.1 = Returned x ∧
       slice tuples r = x :: slice tuples (advance r) ∧
       wf_range tuples (advance r).
Proof.
  rewrite exhausted_false. unfold wf_range, slice, deref, advance.
  destruct r as [f s]; simpl. intros (H0 & H1 & H2) Hne.
  assert (Hlt : (Z.to_nat f < length tuples)%nat) by lia.
  destruct (lookup_lt_is_Some_2 tuples (Z.to_nat f) Hlt) as [x Hx].
  exists x. rewrite (proj2 (Z.leb_le 0 f) H0), Hx. split; [done|]. split; [|lia].
  replace (Z.to_nat (s - f)) with (S (Z.to_nat (s - (f + 1)))) by lia.
  replace (Z.to_nat (f + 1)) with (S (Z.to_nat f)) by lia.
  by rewrite (drop_S _ _ _ Hx).
Qed.

Lemma remaining_cons r ps :
  remaining tuples (r :: ps) = slice tuples r ++ remaining tuples ps.
Proof. reflexivity. Qed.

Lemma remaining_alter ps m r x :
  ps !! m = Some r →
  slice tuples r = x :: slice tuples (advance r) →
  remaining tuples ps ≡ₚ x :: remaining tuples (alter advance m ps).
Proof.
  revert m. induction ps as [|r' ps IH]; intros [|m] Hm Hs; simplify_eq/=.
  - rewrite !remaining_cons, Hs. done.
  - rewrite !remaining_cons, (IH _ Hm Hs). by rewrite Permutation_middle.
Qed.

Lemma remaining_alter_length ps m r x :
  ps !! m = Some r →
  slice tuples r = x :: slice tuples (advance r) →
  length (remaining tuples ps) = S (length (remaining tuples (alter advance m ps))).
Proof. intros Hm Hs. by rewrite (remaining_alter _ _ _ _ Hm Hs). Qed.

(** ** The erase pass *)

Lemma erase_exhausted_spec ps n :
  erase_exhausted ps n =
    (filter (λ r, r.1 ≠ r.2) ps,
     Nat.iter (length ps - length (filter (λ r : tuple_range, r.1 ≠ r.2) ps)) size_t_dec n).
Proof.
  revert n. induction ps as [|r ps IH]; intros n; simpl; [done|].
  pose proof (length_filter (λ r : tuple_range, r.1 ≠ r.2) ps) as Hle.
  destruct (exhausted r) eqn:Hr.
  - apply exhausted_true in Hr.
    rewrite filter_cons_False by (intros ?; done).
    rewrite IH. f_equal.
    replace (S (length ps) - length (filter (λ r, r.1 ≠ r.2) ps))%nat
      with (S (length ps - length (filter (λ r : tuple_range, r.1 ≠ r.2) ps)))%nat by lia.
    by rewrite Nat.iter_succ_r.
  - apply exhausted_false in Hr.
    rewrite filter_cons_True by done.
    rewrite IH. simpl. done.
Qed.

Lemma erase_exhausted_size ps (k : nat) :
  (erase_exhausted ps (size_t_of_nat (k + length ps))).2 =
    size_t_of_nat (k + length (erase_exhausted ps (size_t_of_nat (k + length ps))).1).
Proof.
  revert k. induction ps as [|r ps IH]; intros k; simpl; [done|].
  destruct (exhausted r) eqn:Hr.
  - replace (k + S (length ps))%nat with (S (k + length ps)) by lia.
    rewrite size_t_dec_of_nat. apply IH.
  - specialize (IH (S k)).
    replace (S k + length ps)%nat with (k + S (length ps))%nat in IH by lia.
    destruct (erase_exhausted ps _) as [ps'' n'] eqn:He. simpl in *.
    rewrite IH. f_equal. lia.
Qed.

Lemma erase_exhausted_remaining ps n :
  remaining tuples (erase_exhausted ps n).1 = remaining tuples ps.
Proof.
  rewrite erase_exhausted_spec. simpl.
  induction ps as [|r ps IH]; [done|].
  destruct (decide (r.1 = r.2)) as [Heq|Hne].
  - rewrite filter_cons_False by (intros ?; done).
    rewrite remaining_cons, slice_exhausted by by apply exhausted_true. done.
  - rewrite filter_cons_True by done. rewrite !remaining_cons. by f_equal.
Qed.

Lemma erase_exhausted_Forall (P : tuple_range → Prop) ps n :
  Forall P ps → Forall P (erase_exhausted ps n).1.
Proof.
  rewrite erase_exhausted_spec. simpl. intros H.
  apply Forall_forall. intros r Hr%list_elem_of_filter.
  destruct Hr as [_ Hr]. by eapply Forall_forall in H.
Qed.

Lemma erase_exhausted_live ps n :
  Forall (λ r, exhausted r = false) (erase_exhausted ps n).1.
Proof.
  rewrite erase_exhausted_spec. simpl.
  apply Forall_forall. intros r Hr%list_elem_of_filter.
  apply exhausted_false. tauto.
Qed.

Lemma erase_exhausted_keeps ps n r :
  r ∈ ps → exhausted r = false → r ∈ (erase_exhausted ps n).1.
Proof.
  rewrite erase_exhausted_spec. simpl. intros Hin Hr.
  apply list_elem_of_filter. split; [by apply exhausted_false|done].
Qed.

(** ** Selection: [min_tuple_range] *)

Lemma live_range_wf r : live_range tuples r → wf_range tuples r.
Proof. unfold live_range, wf_range. tauto. Qed.

Lemma live_range_head r :
  live_range tuples r →
  ∃ x, deref tuples r.1 = Returned x ∧
       slice tuples r = x :: slice tuples (advance r) ∧
       wf_range tuples (advance r).
Proof. intros [Hl Hwf]. by apply slice_head. Qed.

Lemma head_not_less_step a hs r :
  strict_weak_order comp → comp a hs = true →
  head_not_less comp tuples hs r → head_not_less comp tuples a r.
Proof.
  intros (_ & Htr & _) Hc H0 y Hy.
  destruct (comp y a) eqn:Hya; [|done].
  pose proof (H0 y Hy) as H1. rewrite (Htr _ _ _ Hya Hc) in H1. discriminate.
Qed.

Lemma head_greater_step a hs r :
  strict_weak_order comp → comp a hs = true →
  head_not_less comp tuples hs r → head_greater comp tuples a r.
Proof.
  intros (_ & _ & Hnt) Hc H0 y Hy.
  destruct (comp a y) eqn:Hay; [done|].
  rewrite (Hnt _ _ _ Hay (H0 y Hy)) in Hc. discriminate.
Qed.

Lemma head_not_less_self a r :
  strict_weak_order comp → deref tuples r.1 = Returned a →
  head_not_less comp tuples a r.
Proof. intros (Hirr & _) Ha y Hy. rewrite Ha in Hy. simplify_eq. apply Hirr. Qed.

Lemma min_tuple_range_scan_spec rest : ∀ pre smallest sr hs,
  pre !! smallest = Some sr →
  deref tuples sr.1 = Returned hs →
  Forall (live_range tuples) rest →
  ∃ m r x,
    min_tuple_range_scan comp tuples rest (length pre) smallest sr = Returned m ∧
    (pre ++ rest) !! m = Some r ∧
    deref tuples r.1 = Returned x ∧
    (strict_weak_order comp →
     Forall (head_not_less comp tuples hs) pre →
     Forall (head_greater comp tuples hs) (take smallest pre) →
     Forall (head_not_less comp tuples x) (pre ++ rest) ∧
     Forall (head_greater comp tuples x) (take m (pre ++ rest))).
Proof.
  induction rest as [|r rest IH]; intros pre smallest sr hs Hsm Hhs Hlive.
  - exists smallest, sr, hs. simpl. rewrite app_nil_r. eauto.
  - apply Forall_cons in Hlive as [Hr Hlive].
    destruct (live_range_head r Hr) as (a & Ha & _ & _).
    destruct Hr as [Hex _].
    pose proof (lookup_lt_Some _ _ _ Hsm) as Hlt.
    simpl. rewrite Hex, Ha, Hhs. simpl.
    destruct (comp a hs) eqn:Hc.
    + destruct (IH (pre ++ [r]) (length pre) r a) as (m & r' & x & Hrun & Hm & Hx & Hord);
        [by apply list_lookup_middle|done|done|].
      rewrite length_app, Nat.add_1_r in Hrun.
      rewrite <- app_assoc in Hm, Hord. simpl in Hm, Hord.
      exists m, r', x. split_and!; [done..|].
      intros Hswo Hnl Hgt. apply Hord; [done| |].
      * apply Forall_app. split; [|apply Forall_singleton; by apply head_not_less_self].
        eapply Forall_impl; [exact Hnl|]. intros r0. by apply head_not_less_step.
      * rewrite take_app_length.
        eapply Forall_impl; [exact Hnl|]. intros r0. by apply head_greater_step.
    + destruct (IH (pre ++ [r]) smallest sr hs) as (m & r' & x & Hrun & Hm & Hx & Hord);
        [by rewrite lookup_app_l|done|done|].
      rewrite length_app, Nat.add_1_r in Hrun.
      rewrite <- app_assoc in Hm, Hord. simpl in Hm, Hord.
      exists m, r', x. split_and!; [done..|].
      intros Hswo Hnl Hgt. apply Hord; [done| |].
      * apply Forall_app. split; [done|]. apply Forall_singleton.
        intros y Hy. rewrite Ha in Hy. by simplify_eq.
      * by rewrite take_app_le by lia.
Qed.

Lemma min_tuple_range_spec ps :
  ps ≠ [] →
  Forall (live_range tuples) ps →
  ∃ m r x,
    min_tuple_range comp tuples ps = Returned m ∧
    ps !! m = Some r ∧
    deref tuples r.1 = Returned x ∧
    (strict_weak_order comp →
     Forall (head_not_less comp tuples x) ps ∧
     Forall (head_greater comp tuples x) (take m ps)).
Proof.
  destruct ps as [|r0 rest]; [done|]. intros _ [Hr0 Hrest]%Forall_cons.
  destruct (live_range_head r0 Hr0) as (h0 & Hh0 & _ & _).
  destruct (min_tuple_range_scan_spec rest [r0] 0%nat r0 h0)
    as (m & r & x & Hrun & Hm & Hx & Hord); [done..|].
  exists m, r, x. split_and!; [done..|].
  intros Hswo. apply Hord; [done| |by constructor].
  apply Forall_singleton. by apply head_not_less_self.
Qed.

(** The assertions of [min_tuple_range] cannot fail on a list that the
    erase pass has just cleaned and that is not empty. *)
Lemma min_tuple_range_scan_assertions rest i smallest sr f :
  Forall (λ r, exhausted r = false) rest →
  min_tuple_range_scan comp tuples rest i smallest sr = Failed f →
  f = BadDereference.
Proof.
  revert i smallest sr. induction rest as [|r rest IH]; intros i smallest sr Hlive Hf.
  - discriminate.
  - apply Forall_cons in Hlive as [Hr Hlive]. simpl in Hf. rewrite Hr in Hf.
    unfold deref in Hf.
    repeat (case_match; simpl in Hf; simplify_eq; try done); eauto.
Qed.

Lemma min_tuple_range_assertions ps f :
  ps ≠ [] →
  Forall (λ r, exhausted r = false) ps →
  min_tuple_range comp tuples ps = Failed f →
  f = BadDereference.
Proof.
  destruct ps as [|r0 rest]; [done|]. intros _ [_ Hrest]%Forall_cons Hf.
  by eapply min_tuple_range_scan_assertions.
Qed.


(** ** One selection step *)

Lemma select_and_emit_spec st :
  partitions st ≠ [] →
  Forall (live_range tuples) (partitions st) →
  ∃ m r x,
    partitions st !! m = Some r ∧
    deref tuples r.1 = Returned x ∧
    slice tuples r = x :: slice tuples (advance r) ∧
    wf_range tuples (advance r) ∧
    select_and_emit comp tuples st =
      Returned (MergeState (alter advance m (partitions st))
                  (nonEmptyPartitions st) (tupleCnt st) (tupleSkipped st)
                  (output_table st ++ [x]) (S (pmp st))) ∧
    (strict_weak_order comp →
     Forall (head_not_less comp tuples x) (partitions st) ∧
     Forall (head_greater comp tuples x) (take m (partitions st))).
Proof.
  intros Hne Hlive.
  destruct (min_tuple_range_spec _ Hne Hlive) as (m & r & x & Hmin & Hm & Hx & Hord).
  assert (Hr : live_range tuples r).
  { eapply Forall_forall in Hlive; [done|]. by eapply list_elem_of_lookup_2. }
  destruct (live_range_head r Hr) as (x' & Hx' & Hs & Hwf).
  rewrite Hx in Hx'. simplify_eq.
  exists m, r, x'. split_and!; try done.
  unfold select_and_emit. rewrite Hmin. simpl. rewrite Hm, Hx. done.
Qed.

Lemma live_remaining_length ps :
  Forall (live_range tuples) ps → (length ps ≤ length (remaining tuples ps))%nat.
Proof.
  induction 1 as [|r ps Hr _ IH]; [done|].
  destruct (live_range_head r Hr) as (x & _ & Hs & _).
  rewrite remaining_cons, length_app, Hs. simpl. lia.
Qed.

(** ** The fast path *)

Lemma drain_all limit offset fuel : ∀ st r rest,
  partitions st = r :: rest →
  wf_range tuples r →
  limit = -1 ∨ tupleCnt st < limit →
  tupleSkipped st + (r.2 - r.1) <= INT_MAX →
  (length (slice tuples r) < fuel)%nat →
  drain fuel tuples limit offset st =
    Returned (MergeState ((r.2, r.2) :: rest) (nonEmptyPartitions st) (tupleCnt st)
                (tupleSkipped st + (r.2 - r.1))
                (output_table st
                   ++ drop (Z.to_nat (offset - tupleSkipped st)) (slice tuples r))
                (pmp st
                   + length (drop (Z.to_nat (offset - tupleSkipped st)) (slice tuples r)))).
Proof.
  induction fuel as [|fuel IH]; intros st r rest Hps Hwf Hlim Hmax Hfuel; [lia|].
  assert (Hcond : (limit =? -1) || (tupleCnt st <? limit) = true).
  { apply orb_true_iff. destruct Hlim; [left; lia|right; lia]. }
  simpl. rewrite Hps, Hcond, andb_true_r.
  destruct (exhausted r) eqn:Hex; simpl.
  - rewrite (slice_exhausted _ Hex), drop_nil, app_nil_r. simpl.
    apply exhausted_true in Hex. destruct st, r; simpl in *; subst.
    do 2 f_equal; lia.
  - destruct (slice_head _ Hwf Hex) as (x & Hx & Hs & Hwf').
    pose proof (slice_length _ Hwf) as Hlen.
    rewrite Hs in Hfuel, Hlen. simpl in Hfuel, Hlen.
    rewrite Hx. simpl.
    destruct (Z.eqb_spec (tupleSkipped st) INT_MAX) as [Hov|Hov]; [lia|].
    rewrite Hs.
    destruct (tupleSkipped st <? offset) eqn:Hsk.
    + apply Z.ltb_lt in Hsk.
      rewrite (IH _ (advance r) rest); simpl; try done; try lia.
      replace (Z.to_nat (offset - tupleSkipped st))
        with (S (Z.to_nat (offset - (tupleSkipped st + 1)))) by lia.
      simpl. do 2 f_equal. lia.
    + apply Z.ltb_ge in Hsk.
      rewrite (IH _ (advance r) rest); simpl; try done; try lia.
      replace (Z.to_nat (offset - tupleSkipped st)) with 0%nat by lia.
      replace (Z.to_nat (offset - (tupleSkipped st + 1))) with 0%nat by lia.
      rewrite !drop_0, <- app_assoc. simpl. do 2 f_equal; lia.
Qed.

Lemma drain_none limit offset fuel st :
  partitions st ≠ [] →
  limit ≠ -1 → limit <= tupleCnt st →
  drain (S fuel) tuples limit offset st = Returned st.
Proof.
  intros Hps Hl1 Hl2. simpl. destruct (partitions st) as [|r rest]; [done|].
  replace (limit =? -1) with false by lia.
  replace (tupleCnt st <? limit) with false by lia.
  by rewrite andb_false_r.
Qed.

(** ** Carving the vector into ranges *)

Lemma sum_counts_cons c counts : sum_counts (c :: counts) = c + sum_counts counts.
Proof. reflexivity. Qed.

Lemma sum_counts_nonneg counts :
  Forall (λ c, 0 < c) counts → 0 <= sum_counts counts.
Proof. induction 1; rewrite ?sum_counts_cons; [done|lia]. Qed.

Lemma split_by_counts_concat (parts : list (list T)) :
  split_by_counts (concat parts) ((λ p, Z.of_nat (length p)) <$> parts) = parts.
Proof.
  induction parts as [|p parts IH]; [done|]. simpl.
  rewrite Nat2Z.id, take_app_length, drop_app_length. by f_equal.
Qed.

Lemma sum_counts_lengths (parts : list (list T)) :
  sum_counts ((λ p, Z.of_nat (length p)) <$> parts) = Z.of_nat (length (concat parts)).
Proof.
  induction parts as [|p parts IH]; [done|].
  rewrite fmap_cons, sum_counts_cons, IH. simpl. rewrite length_app. lia.
Qed.

Lemma concat_split_by_counts (l : list T) counts :
  Forall (λ c, 0 < c) counts →
  concat (split_by_counts l counts) = take (Z.to_nat (sum_counts counts)) l.
Proof.
  intros Hpos. revert l. induction Hpos as [|c counts Hc Hpos IH]; intros l.
  - done.
  - pose proof (sum_counts_nonneg _ Hpos).
    rewrite sum_counts_cons. simpl. rewrite IH, take_take_drop. f_equal. lia.
Qed.

Lemma build_partitions_spec counts : ∀ b,
  0 <= b →
  Forall (λ c, 0 < c) counts →
  b + sum_counts counts <= Z.of_nat (length tuples) →
  (build_partitions b counts).2 = b + sum_counts counts ∧
  length (build_partitions b counts).1 = length counts ∧
  Forall (live_range tuples) (build_partitions b counts).1 ∧
  slice tuples <$> (build_partitions b counts).1 =
    split_by_counts (drop (Z.to_nat b) tuples) counts.
Proof.
  induction counts as [|c counts IH]; intros b Hb Hpos Hsum.
  - simpl. split_and!; [unfold sum_counts; simpl; lia|done|constructor|done].
  - apply Forall_cons in Hpos as [Hc Hpos]. rewrite sum_counts_cons in *.
    pose proof (sum_counts_nonneg _ Hpos) as Hnn. simpl.
    destruct (IH (b + c)) as (IH1 & IH2 & IH3 & IH4); [lia|done|lia|].
    destruct (build_partitions (b + c) counts) as [ps last]. simpl in *.
    split_and!; [lia|by f_equal| |].
    + constructor; [|done]. unfold live_range, wf_range, exhausted. simpl. lia.
    + rewrite drop_drop. f_equal.
      * unfold slice. simpl. by replace (b + c - b) with c by lia.
      * etrans; [exact IH4|].
        by replace (Z.to_nat (b + c)) with (Z.to_nat b + Z.to_nat c)%nat by lia.
Qed.

Lemma build_partitions_positive counts : ∀ b,
  Forall (λ c, 0 < c) counts →
  Forall (λ r, exhausted r = false) (build_partitions b counts).1 ∧
  length (build_partitions b counts).1 = length counts.
Proof.
  induction counts as [|c counts IH]; intros b Hpos; simpl; [by split|].
  apply Forall_cons in Hpos as [Hc Hpos].
  destruct (IH (b + c) Hpos) as [IH1 IH2].
  destruct (build_partitions (b + c) counts) as [ps last]. simpl in *.
  split; [|by f_equal]. constructor; [|done].
  apply exhausted_false. simpl. lia.
Qed.


(** ** The loop up to the fast path *)

Lemma erase_pass_eq st :
  erase_pass st =
    MergeState (erase_exhausted (partitions st) (nonEmptyPartitions st)).1
      (erase_exhausted (partitions st) (nonEmptyPartitions st)).2
      (tupleCnt st) (tupleSkipped st) (output_table st) (pmp st).
Proof. unfold erase_pass. by destruct (erase_exhausted _ _). Qed.

Lemma erase_pass_spec st :
  loop_invariant tuples st →
  Forall (live_range tuples) (partitions (erase_pass st)) ∧
  nonEmptyPartitions (erase_pass st) = Z.of_nat (length (partitions (erase_pass st))) ∧
  Z.of_nat (length (partitions (erase_pass st))) < 2 ^ 64 ∧
  remaining tuples (partitions (erase_pass st)) = remaining tuples (partitions st) ∧
  partitions (erase_pass st) ≠ [].
Proof.
  intros (Hwf & Hn & Hlen & Hrem). rewrite erase_pass_eq. simpl.
  assert (Hle : (length (erase_exhausted (partitions st) (nonEmptyPartitions st)).1
                 ≤ length (partitions st))%nat).
  { rewrite erase_exhausted_spec. simpl. apply length_filter. }
  split_and!.
  - apply Forall_forall. intros r Hr. split.
    + pose proof (erase_exhausted_live (partitions st) (nonEmptyPartitions st)) as HL.
      rewrite Forall_forall in HL. by apply HL.
    + pose proof (erase_exhausted_Forall _ _ (nonEmptyPartitions st) Hwf) as HL.
      rewrite Forall_forall in HL. by apply HL.
  - pose proof (erase_exhausted_size (partitions st) 0) as Hsz.
    simpl in Hsz. rewrite <- Hn in Hsz. rewrite Hsz.
    apply size_t_of_nat_small. lia.
  - lia.
  - apply erase_exhausted_remaining.
  - intros Heq. apply Hrem. rewrite <- (erase_exhausted_remaining _ (nonEmptyPartitions st)).
    by rewrite Heq.
Qed.

Lemma selected_le_remaining x ps :
  strict_weak_order comp →
  Forall (live_range tuples) ps →
  Forall (λ r, StronglySorted (le comp) (slice tuples r)) ps →
  Forall (head_not_less comp tuples x) ps →
  Forall (le comp x) (remaining tuples ps).
Proof.
  intros (_ & _ & Hnt) Hlive. induction Hlive as [|r ps Hr Hlive IH]; [constructor|].
  intros [Hs Hss]%Forall_cons [Hh Hhs]%Forall_cons.
  rewrite remaining_cons. apply Forall_app. split; [|by apply IH].
  destruct (live_range_head r Hr) as (h & Hd & Hsl & _).
  rewrite Hsl in Hs |- *. apply StronglySorted_inv in Hs as [_ Htl].
  pose proof (Hh h Hd) as Hxh.
  constructor; [exact Hxh|].
  eapply Forall_impl; [exact Htl|]. intros y Hy. unfold le in *. by eapply Hnt.
Qed.

Lemma sorted_slices_alter ps m r x :
  Forall (λ r, StronglySorted (le comp) (slice tuples r)) ps →
  ps !! m = Some r →
  slice tuples r = x :: slice tuples (advance r) →
  Forall (λ r, StronglySorted (le comp) (slice tuples r)) (alter advance m ps).
Proof.
  intros Hs Hm Hsl. apply Forall_alter; [done|].
  intros r' Hr' Hsr. simplify_eq. rewrite Hsl in Hsr.
  by apply StronglySorted_inv in Hsr as [? _].
Qed.

Lemma merge_loop_reaches_fast_path limit offset : ∀ n st fuel,
  loop_invariant tuples st →
  length (remaining tuples (partitions st)) = n →
  (n + 2 ≤ fuel)%nat →
  ∃ sel r f1,
    merge_loop comp fuel tuples limit offset st =
      drain f1 tuples limit offset
        (MergeState [r] 1 (tupleCnt st) (tupleSkipped st)
           (output_table st ++ sel) (pmp st + length sel)) ∧
    live_range tuples r ∧
    (length (slice tuples r) < f1)%nat ∧
    sel ++ slice tuples r ≡ₚ remaining tuples (partitions st) ∧
    (strict_weak_order comp →
     Forall (λ r, StronglySorted (le comp) (slice tuples r)) (partitions st) →
     StronglySorted (le comp) (sel ++ slice tuples r)).
Proof.
  induction n as [|n IH]; intros st fuel Hinv Hn Hfuel.
  { destruct Hinv as (_ & _ & _ & Hrem). by apply nil_length_inv in Hn. }
  destruct fuel as [|fuel]; [lia|].
  destruct (erase_pass_spec st Hinv) as (Hlive & Hne & Hlen & Hrem & Hnil).
  pose proof (live_remaining_length _ Hlive) as Hlr.
  rewrite Hrem, Hn in Hlr.
  assert (Hsub : ∀ P : Z * Z → Prop,
            Forall P (partitions st) → Forall P (partitions (erase_pass st))).
  { intros P HP. rewrite erase_pass_eq. simpl. by apply erase_exhausted_Forall. }
  assert (Hst1 : erase_pass st =
            MergeState (partitions (erase_pass st)) (nonEmptyPartitions (erase_pass st))
              (tupleCnt st) (tupleSkipped st) (output_table st) (pmp st))
    by by rewrite erase_pass_eq.
  simpl. destruct (Z.eqb_spec (nonEmptyPartitions (erase_pass st)) 1) as [H1|H1].
  - (* one partition is left *)
    assert (Hl1 : length (partitions (erase_pass st)) = 1%nat) by lia.
    destruct (partitions (erase_pass st)) as [|r [|r' ps]] eqn:Hps; try done.
    apply Forall_inv in Hlive.
    exists [], r, fuel. rewrite app_nil_r, Nat.add_0_r.
    unfold remaining in Hrem. simpl in Hrem. rewrite app_nil_r in Hrem.
    split_and!.
    + by rewrite Hst1, H1.
    + done.
    + rewrite Hrem. fold (remaining tuples (partitions st)). lia.
    + by rewrite Hrem.
    + intros _ Hs. apply Hsub in Hs. by apply Forall_inv in Hs.
  - (* two partitions or more: select, emit, advance *)
    rewrite Hne in H1.
    assert (Hlen2 : (2 ≤ length (partitions (erase_pass st)))%nat).
    { destruct (partitions (erase_pass st)) as [|? [|? ?]]; simpl in *; try done; lia. }
    destruct (select_and_emit_spec _ Hnil Hlive)
      as (m & r & x & Hm & Hx & Hsl & Hwf & Hsel & Hord).
    rewrite Hsel. simpl.
    pose proof (remaining_alter _ _ _ _ Hm Hsl) as Hperm.
    pose proof (remaining_alter_length _ _ _ _ Hm Hsl) as Hplen.
    rewrite Hrem, Hn in Hplen.
    set (st2 := MergeState (alter advance m (partitions (erase_pass st))) _ _ _ _ _).
    assert (Hinv2 : loop_invariant tuples st2).
    { unfold loop_invariant, st2. simpl. rewrite length_alter. split_and!.
      - apply Forall_alter.
        + eapply Forall_impl; [exact Hlive|]. apply live_range_wf.
        + intros r' Hr' _. by simplify_eq.
      - rewrite Hne. symmetry. apply size_t_of_nat_small. lia.
      - lia.
      - intros Heq.
        pose proof (live_remaining_length _ Hlive) as Hl.
        rewrite (remaining_alter_length _ _ _ _ Hm Hsl), Heq in Hl. simpl in Hl. lia. }
    destruct (IH st2 fuel Hinv2) as (sel & r' & f1 & Hrun & Hr' & Hf1 & Hp & Hsorted);
      [unfold st2; simpl; lia|lia|].
    exists (x :: sel), r', f1. split_and!.
    + rewrite Hrun. unfold st2. simpl. rewrite erase_pass_eq. simpl.
      rewrite <- app_assoc. simpl. do 2 f_equal. lia.
    + done.
    + done.
    + rewrite <- Hrem, Hperm. simpl. by rewrite Hp.
    + intros Hswo Hs. apply Hsub in Hs. simpl. constructor.
      * apply Hsorted; [done|]. unfold st2. simpl. by eapply sorted_slices_alter.
      * rewrite Hp. unfold st2. simpl.
        destruct (Hord Hswo) as [Hnl _].
        pose proof (selected_le_remaining _ _ Hswo Hlive Hs Hnl) as Hall.
        rewrite Hperm in Hall. by apply Forall_cons in Hall as [_ ?].
Qed.


(** ** [merge_sort] on a well-formed input *)

Lemma merge_sort_reaches_fast_path counts limit offset fuel :
  well_formed_input tuples counts →
  counts ≠ [] →
  (length tuples + 2 ≤ fuel)%nat →
  ∃ sel r f1,
    merge_sort comp fuel tuples counts limit offset =
      drain f1 tuples limit offset (MergeState [r] 1 0 0 sel (length sel)) ∧
    live_range tuples r ∧
    (length (slice tuples r) < f1)%nat ∧
    sel ++ slice tuples r ≡ₚ tuples ∧
    (strict_weak_order comp →
     Forall (StronglySorted (le comp)) (split_by_counts tuples counts) →
     StronglySorted (le comp) (sel ++ slice tuples r)).
Proof.
  intros (Hpos & Hsum & Hmax) Hne Hfuel.
  destruct (build_partitions_spec counts 0) as (Hlast & Hlen & Hlive & Hsl);
    [lia|done|lia|].
  assert (Hrem : remaining tuples (build_partitions 0 counts).1 = tuples).
  { unfold remaining. rewrite Hsl, drop_0, concat_split_by_counts by done.
    apply take_ge. lia. }
  pose proof (live_remaining_length _ Hlive) as Hll. rewrite Hrem, Hlen in Hll.
  set (st0 := initial_state (T:=T) (build_partitions 0 counts).1
                (size_t_of_nat (length counts))).
  assert (Hinv : loop_invariant tuples st0).
  { unfold loop_invariant, st0. simpl. rewrite Hlen, Hrem. split_and!.
    - eapply Forall_impl; [exact Hlive|]. apply live_range_wf.
    - done.
    - unfold INT_MAX in Hmax. lia.
    - intros ->. destruct counts; simpl in *; [done|lia]. }
  destruct (merge_loop_reaches_fast_path limit offset _ st0 fuel Hinv eq_refl)
    as (sel & r & f1 & Hrun & Hr & Hf1 & Hp & Hsorted).
  { unfold st0. simpl. rewrite Hrem. lia. }
  exists sel, r, f1. unfold st0 in *. simpl in *. rewrite Hrem in Hp.
  split_and!; try done.
  - assert (Hlast' : (build_partitions 0 counts).2 = Z.of_nat (length tuples)) by lia.
    clear Hlast Hsum Hsl Hrem Hinv Hp Hsorted.
    unfold merge_sort. destruct counts as [|c counts']; [done|].
    destruct (build_partitions 0 (c :: counts')) as [ps last] eqn:Hb.
    simpl in Hlast', Hrun. rewrite Hlast', Z.eqb_refl.
    exact Hrun.
  - intros Hswo Hs. apply Hsorted; [done|].
    rewrite drop_0 in Hsl. rewrite <- Hsl in Hs.
    by rewrite Forall_fmap in Hs.
Qed.

Lemma merge_sort_empty limit offset fuel :
  merge_sort comp fuel tuples [] limit offset = Returned (initial_state [] 0).
Proof. reflexivity. Qed.

(** The final state, whatever the limit and the offset. *)
Lemma merge_sort_final_state counts limit offset fuel :
  well_formed_input tuples counts →
  counts ≠ [] →
  (length tuples + 2 ≤ fuel)%nat →
  ∃ sel r,
    live_range tuples r ∧
    sel ++ slice tuples r ≡ₚ tuples ∧
    (strict_weak_order comp →
     Forall (StronglySorted (le comp)) (split_by_counts tuples counts) →
     StronglySorted (le comp) (sel ++ slice tuples r)) ∧
    merge_sort comp fuel tuples counts limit offset =
      Returned
        (if (limit =? -1) || (0 <? limit) then
           MergeState [(r.2, r.2)] 1 0 (r.2 - r.1)
             (sel ++ drop (Z.to_nat offset) (slice tuples r))
             (length sel + length (drop (Z.to_nat offset) (slice tuples r)))
         else MergeState [r] 1 0 0 sel (length sel)).
Proof.
  intros Hwf Hne Hfuel.
  destruct (merge_sort_reaches_fast_path counts limit offset fuel Hwf Hne Hfuel)
    as (sel & r & f1 & Hrun & Hr & Hf1 & Hp & Hsorted).
  exists sel, r. split_and!; try done. rewrite Hrun.
  destruct Hwf as (_ & _ & Hmax).
  pose proof (slice_length r (live_range_wf _ Hr)) as Hsl.
  pose proof (Permutation_length Hp) as Hpl. rewrite length_app in Hpl.
  destruct ((limit =? -1) || (0 <? limit)) eqn:Hl.
  - rewrite (drain_all limit offset f1 _ r []); simpl; try done.
    + by rewrite Z.add_0_l, Z.sub_0_r.
    + by apply live_range_wf.
    + apply orb_true_iff in Hl. destruct Hl; [left|right]; lia.
    + lia.
  - destruct f1 as [|f1]; [lia|].
    apply orb_false_iff in Hl as [Hl1 Hl2].
    apply drain_none; simpl; [done|lia|lia].
Qed.


(** ** What the limit can change *)

Lemma deref_Failed it f : deref tuples it = Failed f → f = BadDereference.
Proof. unfold deref. repeat case_match; congruence. Qed.

Lemma select_and_emit_Returned st st2 :
  select_and_emit comp tuples st = Returned st2 →
  ∃ m r x,
    min_tuple_range comp tuples (partitions st) = Returned m ∧
    partitions st !! m = Some r ∧
    deref tuples r.1 = Returned x ∧
    st2 = MergeState (alter advance m (partitions st)) (nonEmptyPartitions st)
            (tupleCnt st) (tupleSkipped st) (output_table st ++ [x]) (S (pmp st)).
Proof.
  unfold select_and_emit. intros (m & Hm & H)%bind_Returned.
  destruct (partitions st !! m) as [r|] eqn:Hr; [|done].
  apply bind_Returned in H as (x & Hx & H). simplify_eq. eauto 10.
Qed.

Lemma select_and_emit_Failed st f :
  partitions st ≠ [] →
  Forall (λ r, exhausted r = false) (partitions st) →
  select_and_emit comp tuples st = Failed f → f = BadDereference.
Proof.
  unfold select_and_emit. intros Hne Hlive [H|(m & Hm & H)]%bind_Failed.
  - by eapply min_tuple_range_assertions.
  - destruct (partitions st !! m) as [r|] eqn:Hr; [|congruence].
    apply bind_Failed in H as [H|(x & Hx & H)]; [|done].
    by eapply deref_Failed.
Qed.

Lemma drain_Failed limit offset fuel : ∀ st f,
  drain fuel tuples limit offset st = Failed f →
  f = BadDereference ∨ f = SignedOverflow.
Proof.
  induction fuel as [|fuel IH]; intros st f; simpl; [done|].
  destruct (partitions st) as [|r rest]; [left; congruence|].
  case_match; [|done].
  intros [Hd|(x & Hx & Hd)]%bind_Failed; [left; by eapply deref_Failed|].
  repeat case_match; eauto; right; congruence.
Qed.

Lemma drain_S limit offset fuel st :
  drain (S fuel) tuples limit offset st =
    match partitions st with
    | [] => Failed BadDereference
    | r :: rest =>
        if negb (exhausted r) && ((limit =? -1) || (tupleCnt st <? limit)) then
          tuple ← deref tuples r.1;
          if tupleSkipped st =? INT_MAX then Failed SignedOverflow
          else
            if tupleSkipped st <? offset then
              drain fuel tuples limit offset
                (MergeState (advance r :: rest) (nonEmptyPartitions st)
                   (tupleCnt st) (tupleSkipped st + 1) (output_table st) (pmp st))
            else
              drain fuel tuples limit offset
                (MergeState (advance r :: rest) (nonEmptyPartitions st)
                   (tupleCnt st) (tupleSkipped st + 1)
                   (output_table st ++ [tuple]) (S (pmp st)))
        else Returned st
    end.
Proof. reflexivity. Qed.

Lemma drain_fuel_S limit offset fuel : ∀ st st',
  drain fuel tuples limit offset st = Returned st' →
  drain (S fuel) tuples limit offset st = Returned st'.
Proof.
  induction fuel as [|fuel IH]; intros st st'; [done|].
  rewrite (drain_S _ _ (S fuel)), (drain_S _ _ fuel).
  destruct (partitions st) as [|r rest]; [done|].
  destruct (negb (exhausted r) && _); [|done].
  destruct (deref tuples r.1) as [x| |]; [|done..]. cbn [mbind outcome_bind].
  destruct (tupleSkipped st =? INT_MAX); [done|].
  destruct (tupleSkipped st <? offset); apply IH.
Qed.

Lemma drain_limit_positive limit offset fuel : ∀ st,
  tupleCnt st = 0 → 1 <= limit →
  drain fuel tuples limit offset st = drain fuel tuples (-1) offset st.
Proof.
  induction fuel as [|fuel IH]; intros st Hc Hl; [done|]. simpl.
  destruct (partitions st) as [|r rest]; [done|].
  rewrite Hc. replace (0 <? limit) with true by lia.
  rewrite !orb_true_r.
  case_match; [|done]. destruct (deref tuples r.1); simpl; try done.
  repeat case_match; try done; by apply IH.
Qed.

Lemma erase_pass_tupleCnt st : tupleCnt (erase_pass st) = tupleCnt st.
Proof. by rewrite erase_pass_eq. Qed.

Lemma merge_loop_limit_positive limit offset fuel : ∀ st,
  tupleCnt st = 0 → 1 <= limit →
  merge_loop comp fuel tuples limit offset st = merge_loop comp fuel tuples (-1) offset st.
Proof.
  induction fuel as [|fuel IH]; intros st Hc Hl; [done|]. simpl.
  case_match.
  - apply drain_limit_positive; [by rewrite erase_pass_tupleCnt|done].
  - destruct (select_and_emit comp tuples (erase_pass st)) as [st2| |] eqn:Hsel;
      simpl; try done.
    apply select_and_emit_Returned in Hsel as (m & r & x & _ & _ & _ & ->).
    apply IH; [|done]. simpl. by rewrite erase_pass_tupleCnt.
Qed.

Lemma merge_loop_S limit offset fuel st :
  merge_loop comp (S fuel) tuples limit offset st =
    if nonEmptyPartitions (erase_pass st) =? 1
    then drain fuel tuples limit offset (erase_pass st)
    else st2 ← select_and_emit comp tuples (erase_pass st);
         merge_loop comp fuel tuples limit offset st2.
Proof. reflexivity. Qed.

Lemma merge_loop_limit_zero offset fuel : ∀ st st',
  tupleCnt st = 0 →
  merge_loop comp fuel tuples (-1) offset st = Returned st' →
  ∃ st0, merge_loop comp fuel tuples 0 offset st = Returned st0 ∧
         drain fuel tuples (-1) offset st0 = Returned st'.
Proof.
  induction fuel as [|fuel IH]; intros st st' Hc; [done|]. rewrite !merge_loop_S.
  case_match.
  - intros Hd. exists (erase_pass st). split; [|by apply drain_fuel_S].
    destruct fuel as [|fuel]; [done|].
    apply drain_none; [|done|rewrite erase_pass_tupleCnt; lia].
    intros Heq. rewrite drain_S, Heq in Hd. done.
  - intros (st2 & Hsel & Hrun)%bind_Returned. rewrite Hsel. cbn [mbind outcome_bind].
    pose proof Hsel as (m & r & x & _ & _ & _ & ->)%select_and_emit_Returned.
    edestruct IH as (st0 & H0 & Hd); [|exact Hrun|];
      [simpl; by rewrite erase_pass_tupleCnt|].
    exists st0. split; [done|by apply drain_fuel_S].
Qed.

(** ** The assertions of [min_tuple_range] *)

Lemma loop_step_live st st2 :
  nonEmptyPartitions st = size_t_of_nat (length (partitions st)) →
  (∃ r, r ∈ partitions st ∧ exhausted r = false) →
  nonEmptyPartitions (erase_pass st) ≠ 1 →
  select_and_emit comp tuples (erase_pass st) = Returned st2 →
  nonEmptyPartitions st2 = size_t_of_nat (length (partitions st2)) ∧
  ∃ r, r ∈ partitions st2 ∧ exhausted r = false.
Proof.
  intros Hn (r & Hr & Hlive) H1 Hsel.
  apply select_and_emit_Returned in Hsel as (m & rm & x & _ & Hm & _ & ->).
  rewrite erase_pass_eq in *. simpl in *.
  pose proof (erase_exhausted_size (partitions st) 0) as Hsz.
  simpl in Hsz. rewrite <- Hn in Hsz.
  pose proof (erase_exhausted_live (partitions st) (nonEmptyPartitions st)) as Hall.
  pose proof (erase_exhausted_keeps _ (nonEmptyPartitions st) _ Hr Hlive) as Hin.
  destruct (erase_exhausted (partitions st) (nonEmptyPartitions st)) as [ps1 n1].
  simpl in *. subst n1. rewrite length_alter. split; [done|].
  assert (Hlen : (2 ≤ length ps1)%nat).
  { apply size_t_of_nat_one; [|done]. by destruct ps1; [apply elem_of_nil in Hin|]. }
  destruct (decide (m = 0%nat)) as [->|Hm0].
  - destruct (lookup_lt_is_Some_2 ps1 1) as [r1 Hr1]; [lia|].
    exists r1. split.
    + apply list_elem_of_lookup. exists 1%nat. by rewrite list_lookup_alter_ne.
    + eapply Forall_forall in Hall; [done|]. by eapply list_elem_of_lookup_2.
  - destruct (lookup_lt_is_Some_2 ps1 0) as [r0 Hr0]; [lia|].
    exists r0. split.
    + apply list_elem_of_lookup. exists 0%nat. by rewrite list_lookup_alter_ne.
    + eapply Forall_forall in Hall; [done|]. by eapply list_elem_of_lookup_2.
Qed.

Lemma loop_head_live st0 st :
  nonEmptyPartitions st0 = size_t_of_nat (length (partitions st0)) →
  (∃ r, r ∈ partitions st0 ∧ exhausted r = false) →
  loop_head comp tuples st0 st →
  nonEmptyPartitions st = size_t_of_nat (length (partitions st)) ∧
  ∃ r, r ∈ partitions st ∧ exhausted r = false.
Proof.
  intros Hn Hlive. induction 1 as [|st st2 _ [IHn IHl] H1 Hsel]; [done|].
  by eapply loop_step_live.
Qed.

Lemma erase_pass_not_empty st :
  (∃ r, r ∈ partitions st ∧ exhausted r = false) →
  partitions (erase_pass st) ≠ [] ∧
  Forall (λ r, exhausted r = false) (partitions (erase_pass st)).
Proof.
  intros (r & Hr & Hlive). rewrite erase_pass_eq. simpl. split.
  - pose proof (erase_exhausted_keeps _ (nonEmptyPartitions st) _ Hr Hlive) as Hin.
    intros Heq. rewrite Heq in Hin. by apply elem_of_nil in Hin.
  - apply erase_exhausted_live.
Qed.

Lemma merge_loop_assertions limit offset fuel : ∀ st f,
  nonEmptyPartitions st = size_t_of_nat (length (partitions st)) →
  (∃ r, r ∈ partitions st ∧ exhausted r = false) →
  merge_loop comp fuel tuples limit offset st = Failed f →
  ¬ assertion_of_min_tuple_range f.
Proof.
  induction fuel as [|fuel IH]; intros st f Hn Hlive; [done|]. simpl.
  destruct (Z.eqb_spec (nonEmptyPartitions (erase_pass st)) 1) as [H1|H1].
  - intros [-> | ->]%drain_Failed; intros [?|?]; congruence.
  - destruct (erase_pass_not_empty st Hlive) as [Hne Hall].
    intros [H|(st2 & Hsel & H)]%bind_Failed.
    + apply select_and_emit_Failed in H; [|done..]. subst. intros [?|?]; congruence.
    + destruct (loop_step_live st st2 Hn Hlive H1 Hsel) as [Hn2 Hl2]. by eapply IH.
Qed.


(** ** The general k-way path on one partition *)

Lemma min_tuple_range_single r : min_tuple_range comp tuples [r] = Returned 0%nat.
Proof. reflexivity. Qed.

Lemma spec_kway_loop_single fuel : ∀ r out,
  wf_range tuples r →
  (length (slice tuples r) < fuel)%nat →
  spec_kway_loop comp fuel tuples [r] out = Returned (out ++ slice tuples r).
Proof.
  induction fuel as [|fuel IH]; intros r out Hwf Hfuel; [lia|]. simpl.
  destruct (decide (r.1 = r.2)) as [Heq|Hne].
  - rewrite filter_cons_False by (intros ?; done). simpl.
    by rewrite slice_exhausted, app_nil_r by by apply exhausted_true.
  - rewrite filter_cons_True by done. rewrite filter_nil.
    destruct (slice_head r Hwf) as (x & Hx & Hs & Hwf'); [by apply exhausted_false|].
    cbn [mbind outcome_bind min_tuple_range min_tuple_range_scan lookup list_lookup].
    rewrite Hx. cbn [mbind outcome_bind alter list_alter].
    rewrite Hs in Hfuel |- *. simpl in Hfuel.
    rewrite (IH (advance r) (out ++ [x]) Hwf'); [|lia]. by rewrite <- app_assoc.
Qed.

(** ** Ties *)

Lemma min_tuple_range_tie ps i j ri rj a b :
  strict_weak_order comp →
  Forall (live_range tuples) ps →
  (i < j)%nat →
  ps !! i = Some ri → ps !! j = Some rj →
  deref tuples ri.1 = Returned a → deref tuples rj.1 = Returned b →
  comp b a = false →
  ∃ m, min_tuple_range comp tuples ps = Returned m ∧ m ≠ j.
Proof.
  intros Hswo Hlive Hij Hi Hj Ha Hb Hba.
  destruct (min_tuple_range_spec ps) as (m & r & x & Hmin & Hm & Hx & Hord);
    [by intros ->|done|].
  exists m. split; [done|]. intros ->. simplify_eq.
  destruct (Hord Hswo) as [_ Hgt].
  rewrite Forall_lookup in Hgt.
  specialize (Hgt i ri). rewrite lookup_take_lt in Hgt by done.
  specialize (Hgt Hi a Ha). rewrite Hx in Hb. simplify_eq. congruence.
Qed.

(** ** The loading loop *)

Lemma load_loop_spec (engine : list (Z * list T)) : ∀ fuel table counts,
  Z.of_nat (length (table ++ concat (delivered engine))) <= INT_MAX →
  (length engine < fuel)%nat →
  load_loop fuel engine table (Z.of_nat (length table)) counts =
    Returned (table ++ concat (delivered engine),
              counts ++ ((λ b, Z.of_nat (length b)) <$>
                           filter (λ b, b ≠ []) (delivered engine))).
Proof.
  induction engine as [|[loaded b] engine IH]; intros fuel table counts Hmax Hfuel;
    (destruct fuel as [|fuel]; [simpl in Hfuel; lia|]).
  - simpl. rewrite !app_nil_r in *. rewrite to_int_small by (unfold INT_MAX in *; lia).
    by rewrite Z.eqb_refl.
  - assert (Hgrow : load_loop (S fuel) ((loaded, b) :: engine) table
                      (Z.of_nat (length table)) counts =
                    if 0 <? loaded
                    then load_loop fuel engine (table ++ b) (Z.of_nat (length (table ++ b)))
                           (counts ++ ((λ b, Z.of_nat (length b)) <$> filter (λ b, b ≠ []) [b]))
                    else Returned (table ++ b,
                           counts ++ ((λ b, Z.of_nat (length b)) <$> filter (λ b, b ≠ []) [b]))).
    { pose proof Hmax as Hmax'. simpl in Hmax'. rewrite !length_app in Hmax'.
      simpl. rewrite !length_app.
      rewrite to_int_small by (unfold INT_MAX in *; lia).
      destruct b as [|t b].
      - rewrite filter_cons_False by (intros ?; done).
        simpl. rewrite Nat.add_0_r, Z.eqb_refl, !app_nil_r. done.
      - rewrite filter_cons_True by done.
        destruct (Z.eqb_spec (Z.of_nat (length table + length (t :: b)))
                    (Z.of_nat (length table))) as [Heq|Hne]; [simpl in Heq; lia|].
        simpl negb. cbv iota. rewrite filter_nil.
        replace (Z.of_nat (length table + length (t :: b)) - Z.of_nat (length table))
          with (Z.of_nat (length (t :: b))) by lia.
        done. }
    rewrite Hgrow. simpl delivered in Hmax |- *.
    destruct (0 <? loaded).
    + rewrite IH.
      * change (b :: delivered engine) with ([b] ++ delivered engine).
        rewrite filter_app, fmap_app, concat_app, <- !app_assoc. simpl.
        by rewrite app_nil_r.
      * rewrite <- app_assoc. exact Hmax.
      * simpl in Hfuel. lia.
    + simpl. by rewrite !app_nil_r.
Qed.

Lemma positive_lengths (deps : list (list T)) :
  Forall (λ c, 0 < c) ((λ b, Z.of_nat (length b)) <$> filter (λ b, b ≠ []) deps).
Proof.
  apply Forall_fmap, Forall_forall. intros b [Hb _]%list_elem_of_filter.
  destruct b; simpl; [done|lia].
Qed.

Lemma sum_lengths_filter (deps : list (list T)) :
  sum_counts ((λ b, Z.of_nat (length b)) <$> filter (λ b, b ≠ []) deps) =
    Z.of_nat (length (concat deps)).
Proof.
  induction deps as [|b deps IH]; [done|]. simpl. rewrite length_app.
  destruct b as [|t b].
  - rewrite filter_cons_False by (intros ?; done). simpl. done.
  - rewrite filter_cons_True by done. rewrite fmap_cons, sum_counts_cons, IH. lia.
Qed.

Lemma concat_filter_nonempty (deps : list (list T)) :
  concat (filter (λ b, b ≠ []) deps) = concat deps.
Proof.
  induction deps as [|b deps IH]; [done|]. destruct b as [|t b].
  - by rewrite filter_cons_False by (intros ?; done).
  - rewrite filter_cons_True by done. simpl. by rewrite IH.
Qed.


(** ** More fuel changes nothing *)

Lemma merge_loop_fuel_S limit offset fuel : ∀ st st',
  merge_loop comp fuel tuples limit offset st = Returned st' →
  merge_loop comp (S fuel) tuples limit offset st = Returned st'.
Proof.
  induction fuel as [|fuel IH]; intros st st'; [done|].
  rewrite (merge_loop_S _ _ (S fuel)), (merge_loop_S _ _ fuel).
  case_match.
  - apply drain_fuel_S.
  - intros (st2 & Hsel & Hrun)%bind_Returned. rewrite Hsel.
    cbn [mbind outcome_bind]. by apply IH.
Qed.

Lemma merge_sort_fuel_le counts limit offset fuel fuel' st :
  (fuel ≤ fuel')%nat →
  merge_sort comp fuel tuples counts limit offset = Returned st →
  merge_sort comp fuel' tuples counts limit offset = Returned st.
Proof.
  induction 1 as [|fuel' _ IH]; [done|]. intros Hrun. specialize (IH Hrun).
  unfold merge_sort in *. destruct counts as [|c counts]; [done|].
  destruct (build_partitions 0 (c :: counts)) as [ps last].
  case_match; [|done]. by apply merge_loop_fuel_S.
Qed.


End Facts.

(** * The claims of the specification *)

Lemma ascending_strict_weak_order : strict_weak_order ascending.
Proof. unfold strict_weak_order, ascending. split_and!; intros; lia. Qed.

Lemma le_transitive {T} (comp : T → T → bool) :
  strict_weak_order comp → Transitive (le comp).
Proof. intros (_ & _ & Hnt) a b c Hab Hbc. unfold le in *. by eapply Hnt. Qed.

(** C1 (offset/limit correctness, scenario with offset 2 and limit 3): the
    code does not do what the claim says. On the partitions [1,3,5], [2,4],
    [6] with limit 3 and offset 2, [merge_sort] inserts [1,2,3,4,5], not
    drop 2 then take 3 of the merged sequence, which is [3,4,5]: the rows
    selected while two partitions or more are left are inserted without
    looking at the offset or at the limit. *)
Theorem merge_sort_ignores_offset_and_limit_while_merging :
  ∃ st,
    merge_sort ascending 8 [1; 3; 5; 2; 4; 6] [3; 2; 1] 3 2 = Returned st ∧
    output_table st = [1; 2; 3; 4; 5] ∧
    output_table st ≠ take 3 (drop 2 [1; 2; 3; 4; 5; 6]).
Proof. eexists. split; [vm_compute; reflexivity|]. split; [reflexivity|discriminate]. Qed.

(** C2 (the limit bounds the number of rows inserted): the code does not
    do what the claim says. On the single partition [1,2,3] with limit 1
    and offset 0 the fast path inserts three rows: [tupleCnt] is compared
    with the limit but never incremented. *)
Theorem merge_sort_exceeds_limit :
  ∃ st,
    merge_sort ascending 5 [1; 2; 3] [3] 1 0 = Returned st ∧
    output_table st = [1; 2; 3] ∧
    (1 < length (output_table st))%nat.
Proof. eexists. split; [vm_compute; reflexivity|]. split; [reflexivity|simpl; lia]. Qed.

Lemma merge_sort_parts_correct {T} (comp : T → T → bool) (parts : list (list T)) fuel :
  strict_weak_order comp →
  Forall (λ p, p ≠ [] ∧ Sorted (le comp) p) parts →
  Z.of_nat (length (concat parts)) <= INT_MAX →
  (length (concat parts) + 2 ≤ fuel)%nat →
  ∃ st,
    merge_sort comp fuel (concat parts) ((λ p, Z.of_nat (length p)) <$> parts) (-1) 0
      = Returned st ∧
    Sorted (le comp) (output_table st) ∧
    output_table st ≡ₚ concat parts.
Proof.
  intros Hswo Hparts Hmax Hfuel.
  destruct parts as [|p parts].
  { eexists. split; [reflexivity|]. split; constructor. }
  pose proof (le_transitive comp Hswo) as Htrans.
  assert (Hwf : well_formed_input (concat (p :: parts))
                  ((λ p, Z.of_nat (length p)) <$> p :: parts)).
  { split_and!; [|apply sum_counts_lengths|done].
    apply Forall_fmap. eapply Forall_impl; [exact Hparts|].
    intros q [Hq _]. destruct q; simpl; [done|lia]. }
  destruct (merge_sort_final_state comp _ _ (-1) 0 fuel Hwf) as (sel & r & Hr & Hp & Hs & Hrun);
    [done|done|].
  simpl in Hrun. rewrite drop_0 in Hrun.
  eexists. split; [exact Hrun|]. simpl. split; [|done].
  apply StronglySorted_Sorted, Hs; [done|].
  rewrite split_by_counts_concat.
  eapply Forall_impl; [exact Hparts|]. intros q [_ Hq].
  by apply Sorted_StronglySorted.
Qed.

(** The same through [p_execute] without a limit node: the batches may be
    empty, the loader records no entry for them. *)
Lemma p_execute_sorted_permutation {T} (comp : T → T → bool)
    (engine : list (Z * list T)) fuel :
  strict_weak_order comp →
  Forall (Sorted (le comp)) (delivered engine) →
  Z.of_nat (length (concat (delivered engine))) <= INT_MAX →
  (length engine < fuel)%nat →
  (length (concat (delivered engine)) + 2 ≤ fuel)%nat →
  ∃ out n,
    p_execute comp fuel None engine = Returned (out, n) ∧
    Sorted (le comp) out ∧
    out ≡ₚ concat (delivered engine).
Proof.
  intros Hswo Hdeps Hmax Hf1 Hf2. unfold p_execute.
  pose proof (load_loop_spec engine fuel [] [] Hmax Hf1) as Hload.
  change (load_loop fuel engine [] 0 [] =
            Returned (concat (delivered engine),
                      (λ b, Z.of_nat (length b)) <$>
                        filter (λ b, b ≠ []) (delivered engine))) in Hload.
  rewrite Hload. cbn [mbind outcome_bind].
  rewrite <- (concat_filter_nonempty (delivered engine)) in Hmax, Hf2 |- *.
  destruct (merge_sort_parts_correct comp (filter (λ b, b ≠ []) (delivered engine)) fuel)
    as (st & Hrun & Hsorted & Hperm); [done| |done|done|].
  { apply Forall_forall. intros b [Hb Hin]%list_elem_of_filter. split; [done|].
    by eapply Forall_forall in Hdeps. }
  rewrite Hrun. cbn [mbind outcome_bind]. eauto.
Qed.

(** C3 (merge correctness): for every collection of row sequences, each
    sorted under a comparator that is a strict weak ordering, [merge_sort]
    with limit -1 and offset 0 returns, and the rows it has inserted are
    sorted under the same comparator and are a permutation of the
    concatenation of the inputs. Stated on [merge_sort] for the partitions
    of a Boundary List (none is empty) and through [p_execute] for any
    batches; the partitions [1,3,5], [2,4], [6] give [1,2,3,4,5,6]. The
    rows must be few enough to be counted by an [int]. *)
Theorem merge_sort_sorted_permutation :
  (∀ (T : Type) (comp : T → T → bool) (parts : list (list T)) (fuel : nat),
     strict_weak_order comp →
     Forall (λ p, p ≠ [] ∧ Sorted (le comp) p) parts →
     Z.of_nat (length (concat parts)) <= INT_MAX →
     (length (concat parts) + 2 ≤ fuel)%nat →
     ∃ st,
       merge_sort comp fuel (concat parts) ((λ p, Z.of_nat (length p)) <$> parts) (-1) 0
         = Returned st ∧
       Sorted (le comp) (output_table st) ∧
       output_table st ≡ₚ concat parts) ∧
  (∀ (T : Type) (comp : T → T → bool) (engine : list (Z * list T)) (fuel : nat),
     strict_weak_order comp →
     Forall (Sorted (le comp)) (delivered engine) →
     Z.of_nat (length (concat (delivered engine))) <= INT_MAX →
     (length engine < fuel)%nat →
     (length (concat (delivered engine)) + 2 ≤ fuel)%nat →
     ∃ out n,
       p_execute comp fuel None engine = Returned (out, n) ∧
       Sorted (le comp) out ∧
       out ≡ₚ concat (delivered engine)) ∧
  (∃ st,
     merge_sort ascending 8 [1; 3; 5; 2; 4; 6] [3; 2; 1] (-1) 0 = Returned st ∧
     output_table st = [1; 2; 3; 4; 5; 6]).
Proof.
  split_and!.
  - intros. by apply merge_sort_parts_correct.
  - intros. by apply p_execute_sorted_permutation.
  - eexists. split; [vm_compute; reflexivity|reflexivity].
Qed.

Lemma merge_sort_sorted_permutation_witness :
  (∃ st,
     merge_sort ascending 8 (concat [[1; 3; 5]; [2; 4]; [6]])
       ((λ p, Z.of_nat (length p)) <$> [[1; 3; 5]; [2; 4]; [6]]) (-1) 0 = Returned st ∧
     Sorted (le ascending) (output_table st) ∧
     output_table st ≡ₚ concat [[1; 3; 5]; [2; 4]; [6]]) ∧
  (∃ out n,
     p_execute ascending 8 None [(1, [1; 3; 5]); (1, []); (1, [2; 4]); (1, [6]); (0, [])]
       = Returned (out, n) ∧
     Sorted (le ascending) out ∧
     out ≡ₚ concat (delivered [(1, [1; 3; 5]); (1, []); (1, [2; 4]); (1, [6]); (0, [])])).
Proof.
  split.
  - apply (proj1 merge_sort_sorted_permutation).
    + apply ascending_strict_weak_order.
    + repeat constructor; done.
    + vm_compute. discriminate.
    + simpl. lia.
  - apply (proj1 (proj2 merge_sort_sorted_permutation)).
    + apply ascending_strict_weak_order.
    + repeat constructor; done.
    + vm_compute. discriminate.
    + simpl. lia.
    + simpl. lia.
Defined.

(** ** The run does not look at what the comparator does not look at *)

Section Relabel.

Context {A B : Type}.
Variable f : A → B.
Variable compA : A → A → bool.
Variable compB : B → B → bool.
Hypothesis comp_f : ∀ a b, compB (f a) (f b) = compA a b.
Variable tuples : list A.

Lemma deref_fmap it : deref (f <$> tuples) it = map_outcome f (deref tuples it).
Proof.
  unfold deref. destruct (0 <=? it); [|done].
  rewrite list_lookup_fmap. by destruct (tuples !! Z.to_nat it).
Qed.

Lemma min_tuple_range_scan_fmap rest : ∀ i smallest sr,
  min_tuple_range_scan compB (f <$> tuples) rest i smallest sr =
  min_tuple_range_scan compA tuples rest i smallest sr.
Proof.
  induction rest as [|r rest IH]; intros i smallest sr; simpl; [done|].
  destruct (exhausted r); [done|]. rewrite !deref_fmap.
  destruct (deref tuples r.1) as [a| |]; [|done..]. cbn [map_outcome mbind outcome_bind].
  destruct (deref tuples sr.1) as [b| |]; [|done..]. cbn [map_outcome mbind outcome_bind].
  rewrite comp_f. destruct (compA a b); apply IH.
Qed.

Lemma select_and_emit_fmap st :
  select_and_emit compB (f <$> tuples) (map_state f st) =
  map_outcome (map_state f) (select_and_emit compA tuples st).
Proof.
  unfold select_and_emit, min_tuple_range. cbn [map_state partitions].
  destruct (partitions st) as [|r0 rest] eqn:Hps; [done|].
  rewrite min_tuple_range_scan_fmap.
  destruct (min_tuple_range_scan compA tuples rest 1 0 r0) as [m| |]; [|done..].
  cbn [mbind outcome_bind].
  destruct ((r0 :: rest) !! m) as [r|]; [|done].
  rewrite deref_fmap. destruct (deref tuples r.1) as [x| |]; [|done..].
  cbn [map_outcome mbind outcome_bind]. unfold map_state. simpl.
  by rewrite fmap_app.
Qed.

Lemma erase_pass_fmap st : erase_pass (map_state f st) = map_state f (erase_pass st).
Proof. by rewrite !erase_pass_eq. Qed.

Lemma drain_fmap limit offset fuel : ∀ st,
  drain fuel (f <$> tuples) limit offset (map_state f st) =
  map_outcome (map_state f) (drain fuel tuples limit offset st).
Proof.
  induction fuel as [|fuel IH]; intros st; [done|]. rewrite !drain_S.
  cbn [map_state partitions tupleCnt tupleSkipped].
  destruct (partitions st) as [|r rest]; [done|].
  destruct (negb (exhausted r) && _); [|done].
  rewrite deref_fmap. destruct (deref tuples r.1) as [x| |]; [|done..].
  cbn [map_outcome mbind outcome_bind].
  destruct (tupleSkipped st =? INT_MAX); [done|].
  destruct (tupleSkipped st <? offset).
  - apply (IH (MergeState _ _ _ _ _ _)).
  - rewrite <- IH. unfold map_state. simpl. by rewrite fmap_app.
Qed.

Lemma merge_loop_fmap limit offset fuel : ∀ st,
  merge_loop compB fuel (f <$> tuples) limit offset (map_state f st) =
  map_outcome (map_state f) (merge_loop compA fuel tuples limit offset st).
Proof.
  induction fuel as [|fuel IH]; intros st; [done|]. rewrite !merge_loop_S.
  rewrite erase_pass_fmap. cbn [map_state nonEmptyPartitions].
  destruct (nonEmptyPartitions (erase_pass st) =? 1); [apply drain_fmap|].
  fold (map_state f (erase_pass st)). rewrite select_and_emit_fmap.
  destruct (select_and_emit compA tuples (erase_pass st)) as [st2| |]; [|done..].
  cbn [map_outcome mbind outcome_bind]. apply IH.
Qed.

Lemma merge_sort_fmap counts limit offset fuel :
  merge_sort compB fuel (f <$> tuples) counts limit offset =
  map_outcome (map_state f) (merge_sort compA fuel tuples counts limit offset).
Proof.
  unfold merge_sort. destruct counts as [|c counts]; [done|].
  destruct (build_partitions 0 (c :: counts)) as [ps last].
  rewrite length_fmap. destruct (last =? Z.of_nat (length tuples)); [|done].
  apply (merge_loop_fmap limit offset fuel (initial_state ps _)).
Qed.

End Relabel.


(** ** Ties and the registration order *)

Lemma sorted_sublist {A} (R : A → A → Prop) (l k : list A) :
  k `sublist_of` l → StronglySorted R l → StronglySorted R k.
Proof.
  induction 1 as [|x k l Hs IH|x k l Hs IH]; intros Hl.
  - constructor.
  - apply StronglySorted_inv in Hl as [Hl Hx]. constructor; [by apply IH|].
    apply Forall_forall. intros y Hy. rewrite Forall_forall in Hx.
    apply Hx. by eapply elem_of_sublist.
  - apply StronglySorted_inv in Hl as [Hl _]. by apply IH.
Qed.

Lemma sorted_lookup_lt {A} (R : A → A → Prop) (l : list A) : ∀ p q a b,
  StronglySorted R l → (p < q)%nat →
  l !! p = Some a → l !! q = Some b → R a b.
Proof.
  induction l as [|x l IH]; intros p q a b Hl Hpq Hp Hq; [done|].
  apply StronglySorted_inv in Hl as [Hl Hx].
  destruct q as [|q]; [lia|]. simpl in Hq. destruct p as [|p].
  - simpl in Hp. simplify_eq. rewrite Forall_forall in Hx.
    apply Hx. by eapply list_elem_of_lookup_2.
  - simpl in Hp. eapply (IH p q); [done|lia|done..].
Qed.

Lemma then_by_partition_strict_weak_order {T} (comp : T → T → bool) :
  strict_weak_order comp → strict_weak_order (then_by_partition comp).
Proof.
  intros (Hirr & Htr & Hnt). unfold then_by_partition. split_and!.
  - intros a. rewrite Hirr. simpl. apply Nat.ltb_irrefl.
  - intros a b c.
    pose proof (Htr a.1 b.1 c.1). pose proof (Htr c.1 b.1 a.1).
    pose proof (Hnt a.1 c.1 b.1). pose proof (Hnt b.1 a.1 c.1).
    pose proof (Hnt c.1 b.1 a.1). pose proof (Hnt c.1 a.1 b.1).
    pose proof (Hnt b.1 c.1 a.1).
    destruct (comp a.1 b.1), (comp b.1 a.1), (comp b.1 c.1), (comp c.1 b.1),
      (comp a.1 c.1), (comp c.1 a.1); simpl; try done; try (intuition congruence);
      rewrite ?Nat.ltb_lt; intros; lia.
  - intros a b c.
    pose proof (Hnt a.1 b.1 c.1). pose proof (Hnt b.1 c.1 a.1).
    pose proof (Hnt c.1 a.1 b.1). pose proof (Hnt c.1 b.1 a.1).
    pose proof (Hnt b.1 a.1 c.1). pose proof (Hnt a.1 c.1 b.1).
    destruct (comp a.1 b.1), (comp b.1 a.1), (comp b.1 c.1), (comp c.1 b.1),
      (comp a.1 c.1), (comp c.1 a.1); simpl; try done; try (intuition congruence);
      rewrite ?Nat.ltb_ge; intros; lia.
Qed.

Section Registration.

Context {T : Type}.
Variable comp : T → T → bool.
Variable tuples : list (T * nat).

Lemma slice_advance_subseteq r a :
  live_range tuples r → a ∈ slice tuples (advance r) → a ∈ slice tuples r.
Proof.
  intros Hr Ha. destruct (live_range_head tuples r Hr) as (x & _ & Hs & _).
  rewrite Hs. by right.
Qed.

Lemma live_range_head_in r :
  live_range tuples r → ∃ x, deref tuples r.1 = Returned x ∧ x ∈ slice tuples r.
Proof.
  intros Hr. destruct (live_range_head tuples r Hr) as (x & Hx & Hs & _).
  exists x. split; [done|]. rewrite Hs. by left.
Qed.

(** While the partitions are in registration order, the scan compares a
    row with a row of an earlier partition only: the partition number
    cannot make it smaller. *)
Lemma min_tuple_range_scan_registered rest : ∀ i smallest sr,
  live_range tuples sr →
  Forall (live_range tuples) rest →
  Forall (registered_before tuples sr) rest →
  in_registration_order tuples rest →
  min_tuple_range_scan (on_row comp) tuples rest i smallest sr =
  min_tuple_range_scan (then_by_partition comp) tuples rest i smallest sr.
Proof.
  induction rest as [|r rest IH]; intros i smallest sr Hsr Hlive Hbefore Hord; [done|].
  apply Forall_cons in Hlive as [Hr Hlive].
  apply Forall_cons in Hbefore as [Hb Hbefore].
  apply StronglySorted_inv in Hord as [Hord Hrb].
  destruct (live_range_head_in r Hr) as (a & Ha & Hain).
  destruct (live_range_head_in sr Hsr) as (b & Hb' & Hbin).
  simpl. destruct (exhausted r); [done|]. rewrite Ha, Hb'. cbn [mbind outcome_bind].
  specialize (Hb b a Hbin Hain).
  assert (Hsame : then_by_partition comp a b = on_row comp a b).
  { unfold then_by_partition, on_row.
    replace (a.2 <? b.2)%nat with false by (symmetry; apply Nat.ltb_ge; lia).
    by rewrite andb_false_r, orb_false_r. }
  rewrite Hsame. destruct (on_row comp a b); by apply IH.
Qed.

Lemma select_and_emit_registered st :
  Forall (live_range tuples) (partitions st) →
  in_registration_order tuples (partitions st) →
  select_and_emit (on_row comp) tuples st =
  select_and_emit (then_by_partition comp) tuples st.
Proof.
  intros Hlive Hord. unfold select_and_emit, min_tuple_range.
  destruct (partitions st) as [|r0 rest]; [done|].
  apply Forall_cons in Hlive as [Hr0 Hlive].
  apply StronglySorted_inv in Hord as [Hord Hb].
  by rewrite min_tuple_range_scan_registered.
Qed.

Lemma in_registration_order_advance ps : ∀ m,
  Forall (live_range tuples) ps →
  in_registration_order tuples ps →
  in_registration_order tuples (alter advance m ps).
Proof.
  unfold in_registration_order.
  induction ps as [|r ps IH]; intros m Hlive Hord; [done|].
  apply Forall_cons in Hlive as [Hr Hlive].
  apply StronglySorted_inv in Hord as [Hord Hb].
  destruct m as [|m]; simpl.
  - constructor; [done|]. eapply Forall_impl; [exact Hb|].
    intros r' Hr' a b Ha Hb'. apply Hr'; [|done]. by apply slice_advance_subseteq.
  - constructor; [by apply IH|].
    apply Forall_alter; [done|]. intros r' Hm Hr' a b Ha Hb'.
    apply Hr'; [done|]. apply slice_advance_subseteq; [|done].
    eapply Forall_forall in Hlive; [done|]. by eapply list_elem_of_lookup_2.
Qed.

Lemma merge_loop_registered limit offset fuel : ∀ st,
  Forall (wf_range tuples) (partitions st) →
  in_registration_order tuples (partitions st) →
  merge_loop (on_row comp) fuel tuples limit offset st =
  merge_loop (then_by_partition comp) fuel tuples limit offset st.
Proof.
  induction fuel as [|fuel IH]; intros st Hwf Hord; [done|]. rewrite !merge_loop_S.
  destruct (nonEmptyPartitions (erase_pass st) =? 1); [done|].
  assert (Hlive : Forall (live_range tuples) (partitions (erase_pass st))).
  { rewrite erase_pass_eq. simpl. apply Forall_forall. intros r Hr. split.
    - pose proof (erase_exhausted_live (partitions st) (nonEmptyPartitions st)) as HL.
      rewrite Forall_forall in HL. by apply HL.
    - pose proof (erase_exhausted_Forall _ _ (nonEmptyPartitions st) Hwf) as HL.
      rewrite Forall_forall in HL. by apply HL. }
  assert (Hord1 : in_registration_order tuples (partitions (erase_pass st))).
  { rewrite erase_pass_eq. simpl. rewrite erase_exhausted_spec. simpl.
    eapply sorted_sublist; [apply sublist_filter|done]. }
  rewrite select_and_emit_registered by done.
  destruct (select_and_emit (then_by_partition comp) tuples (erase_pass st))
    as [st2| |] eqn:Hsel; [|done..].
  cbn [mbind outcome_bind].
  apply select_and_emit_Returned in Hsel as (m & r & x & _ & Hm & _ & ->).
  apply IH; simpl.
  - apply Forall_alter.
    + eapply Forall_impl; [exact Hlive|]. apply live_range_wf.
    + intros r' Hr' _. simplify_eq.
      assert (Hr : live_range tuples r).
      { eapply Forall_forall in Hlive; [done|]. by eapply list_elem_of_lookup_2. }
      by destruct (live_range_head tuples r Hr) as (? & _ & _ & ?).
  - by apply in_registration_order_advance.
Qed.

End Registration.


Section Registered.

Context {T : Type}.
Variable comp : T → T → bool.

Lemma lengths_registered (parts : list (list T)) : ∀ k,
  (λ p, Z.of_nat (length p)) <$> registered k parts =
  (λ p, Z.of_nat (length p)) <$> parts.
Proof.
  induction parts as [|p parts IH]; intros k; [done|]. simpl.
  by rewrite length_fmap, IH.
Qed.

Lemma fst_concat_registered (parts : list (list T)) : ∀ k,
  fst <$> concat (registered k parts) = concat parts.
Proof.
  induction parts as [|p parts IH]; intros k; [done|]. simpl.
  rewrite fmap_app, IH, <- list_fmap_compose. f_equal.
  clear. induction p as [|x p IH]; [done|]. simpl. by f_equal.
Qed.

Lemma length_concat_registered (parts : list (list T)) k :
  length (concat (registered k parts)) = length (concat parts).
Proof. by rewrite <- (fst_concat_registered parts k), length_fmap. Qed.

Lemma registered_numbers (parts : list (list T)) : ∀ k,
  Forall (Forall (λ a : T * nat, (k ≤ a.2)%nat)) (registered k parts).
Proof.
  induction parts as [|p parts IH]; intros k; simpl; constructor.
  - apply Forall_fmap, Forall_forall. intros x _. simpl. lia.
  - eapply Forall_impl; [apply (IH (S k))|]. intros l Hl.
    eapply Forall_impl; [exact Hl|]. intros a Ha. simpl in Ha. lia.
Qed.

Lemma registered_ordered (parts : list (list T)) : ∀ k,
  StronglySorted (λ l l' : list (T * nat), ∀ a b, a ∈ l → b ∈ l' → (a.2 < b.2)%nat)
    (registered k parts).
Proof.
  induction parts as [|p parts IH]; intros k; simpl; constructor; [apply IH|].
  eapply Forall_impl; [apply (registered_numbers parts (S k))|].
  intros l Hl a b Ha Hb. rewrite Forall_forall in Hl. specialize (Hl b Hb).
  apply list_elem_of_fmap in Ha as (x & -> & _). simpl in *. lia.
Qed.

Lemma registered_sorted (parts : list (list T)) : ∀ k,
  strict_weak_order comp →
  Forall (λ p, p ≠ [] ∧ Sorted (le comp) p) parts →
  Forall (λ p, p ≠ [] ∧ Sorted (le (then_by_partition comp)) p) (registered k parts).
Proof.
  intros k Hswo Hparts. revert k.
  induction Hparts as [|p parts [Hne Hs] _ IH]; intros k; simpl; constructor; [|apply IH].
  split; [by destruct p|].
  clear -Hs. induction Hs as [|x p Hs IH Hhd]; simpl; constructor; [done|].
  destruct Hhd as [|y p Hxy]; simpl; constructor.
  unfold le, then_by_partition in *. simpl. rewrite Hxy. simpl.
  by rewrite Nat.ltb_irrefl, andb_false_r.
Qed.

Lemma sorted_slices (tuples : list (T * nat)) (ps : list (Z * Z)) :
  StronglySorted (λ l l' : list (T * nat), ∀ a b, a ∈ l → b ∈ l' → (a.2 < b.2)%nat)
    (slice tuples <$> ps) →
  in_registration_order tuples ps.
Proof.
  unfold in_registration_order.
  induction ps as [|r ps IH]; intros Hs; [constructor|].
  rewrite fmap_cons in Hs. apply StronglySorted_inv in Hs as [Hs Hr].
  constructor; [by apply IH|]. by rewrite Forall_fmap in Hr.
Qed.

Lemma merge_sort_registered (parts : list (list T)) limit offset fuel :
  Forall (λ p, p ≠ []) parts →
  merge_sort (on_row comp) fuel (concat (registered 0 parts))
    ((λ p, Z.of_nat (length p)) <$> parts) limit offset =
  merge_sort (then_by_partition comp) fuel (concat (registered 0 parts))
    ((λ p, Z.of_nat (length p)) <$> parts) limit offset.
Proof.
  intros Hne.
  assert (Hpos : Forall (λ c, 0 < c) ((λ p, Z.of_nat (length p)) <$> parts)).
  { apply Forall_fmap. eapply Forall_impl; [exact Hne|].
    intros q Hq. destruct q; simpl; [done|lia]. }
  pose proof (sum_counts_lengths (registered 0 parts)) as Hsum.
  rewrite lengths_registered in Hsum.
  destruct (build_partitions_spec (concat (registered 0 parts))
              ((λ p, Z.of_nat (length p)) <$> parts) 0)
    as (_ & _ & Hlive & Hsl); [lia|done|lia|].
  rewrite drop_0, <- (lengths_registered parts 0), split_by_counts_concat,
    lengths_registered in Hsl.
  unfold merge_sort. destruct ((λ p, Z.of_nat (length p)) <$> parts) as [|c counts]; [done|].
  destruct (build_partitions 0 (c :: counts)) as [ps last]. simpl in Hlive, Hsl.
  case_match; [|done]. apply merge_loop_registered; simpl.
  - eapply Forall_impl; [exact Hlive|]. apply live_range_wf.
  - apply sorted_slices. rewrite Hsl. apply registered_ordered.
Qed.

(** With limit -1 and offset 0: the run on the rows paired with their
    partition number is the run on the bare rows, its output holds every
    row of every partition once, and of two rows of the output the first
    does not compare greater, and comes from the partition registered
    earlier, or from the same one, when it does not compare less. *)
Lemma merge_sort_ties_by_registration (parts : list (list T)) fuel :
  strict_weak_order comp →
  Forall (λ p, p ≠ [] ∧ Sorted (le comp) p) parts →
  Z.of_nat (length (concat parts)) <= INT_MAX →
  (length (concat parts) + 2 ≤ fuel)%nat →
  ∃ st,
    merge_sort (on_row comp) fuel (concat (registered 0 parts))
      ((λ p, Z.of_nat (length p)) <$> parts) (-1) 0 = Returned st ∧
    merge_sort comp fuel (concat parts)
      ((λ p, Z.of_nat (length p)) <$> parts) (-1) 0 = Returned (map_state fst st) ∧
    output_table st ≡ₚ concat (registered 0 parts) ∧
    ∀ p q a b,
      (p < q)%nat →
      output_table st !! p = Some a → output_table st !! q = Some b →
      comp b.1 a.1 = false ∧ (comp a.1 b.1 = false → (a.2 ≤ b.2)%nat).
Proof.
  intros Hswo Hparts Hmax Hfuel.
  pose proof (then_by_partition_strict_weak_order comp Hswo) as Hswo'.
  destruct (merge_sort_parts_correct (then_by_partition comp) (registered 0 parts) fuel)
    as (st & Hrun & Hsorted & Hperm).
  { done. }
  { by apply registered_sorted. }
  { by rewrite length_concat_registered. }
  { by rewrite length_concat_registered. }
  rewrite lengths_registered in Hrun.
  rewrite <- merge_sort_registered in Hrun
    by (eapply Forall_impl; [exact Hparts|]; by intros ? [? _]).
  exists st. split_and!; [done| |done|].
  - rewrite <- (fst_concat_registered parts 0).
    rewrite (merge_sort_fmap fst (on_row comp) comp) by done.
    by rewrite Hrun.
  - intros p q a b Hpq Hp Hq.
    apply (Sorted_StronglySorted (le_transitive _ Hswo')) in Hsorted.
    pose proof (sorted_lookup_lt _ _ p q a b Hsorted Hpq Hp Hq) as Hle.
    unfold le, then_by_partition in Hle.
    apply orb_false_iff in Hle as [Hba Htag]. split; [done|].
    intros Hab. rewrite Hab in Htag. simpl in Htag. apply Nat.ltb_ge in Htag. lia.
Qed.

End Registered.


Lemma two_rows_in_registration_order {T} (comp : T → T → bool) (a b : T) :
  comp b a = false →
  merge_sort comp 4 [a; b] [1; 1] (-1) 0 =
    Returned (MergeState [(2, 2)] 1 0 1 [a; b] 2).
Proof.
  intros Hba.
  assert (Hsel : select_and_emit comp [a; b] (MergeState [(0, 1); (1, 2)] 2 0 0 [] 0)
                 = Returned (MergeState [(1, 1); (1, 2)] 2 0 0 [a] 1)).
  { unfold select_and_emit, min_tuple_range. simpl. rewrite Hba. reflexivity. }
  unfold merge_sort.
  change (build_partitions 0 [1; 1]) with ([(0, 1); (1, 2)], 2).
  cbv beta iota.
  change (2 =? Z.of_nat (length [a; b])) with true. cbv iota.
  rewrite merge_loop_S.
  change (erase_pass (initial_state [(0, 1); (1, 2)] (size_t_of_nat (length [1; 1]))))
    with (MergeState (T:=T) [(0, 1); (1, 2)] 2 0 0 [] 0).
  cbn [nonEmptyPartitions]. change (2 =? 1) with false. cbv iota.
  rewrite Hsel. cbn [mbind outcome_bind].
  vm_compute. reflexivity.
Qed.

Lemma first_field_ascending_strict_weak_order : strict_weak_order first_field_ascending.
Proof. unfold strict_weak_order, first_field_ascending. split_and!; intros; lia. Qed.

(** C4 (tie determinism): the selection step picks the first partition, in
    registration order, whose cursor row is a minimum: no cursor row
    compares less than the selected one, and every partition whose cursor
    row does not compare greater than it is registered at the selected
    position or later; so of two partitions whose cursor rows compare
    equal the later one is never selected. In the output of [merge_sort]
    (limit -1, offset 0), of two rows that compare equal the one from the
    partition registered earlier comes first: stated on the rows paired
    with the number of their partition, a pairing the run does not see.
    Partition A = [(1,a)], partition B = [(1,b)], compared on the first
    field, give [(1,a), (1,b)]. *)
Theorem tie_selects_earlier_partition :
  (∀ (T : Type) (comp : T → T → bool) (tuples : list T) (ps : list (Z * Z)),
     strict_weak_order comp →
     ps ≠ [] →
     Forall (live_range tuples) ps →
     ∃ m r x,
       min_tuple_range comp tuples ps = Returned m ∧
       ps !! m = Some r ∧
       deref tuples r.1 = Returned x ∧
       (∀ j rj y, ps !! j = Some rj → deref tuples rj.1 = Returned y →
                  comp y x = false) ∧
       (∀ j rj y, ps !! j = Some rj → deref tuples rj.1 = Returned y →
                  comp x y = false → (m ≤ j)%nat)) ∧
  (∀ (T : Type) (comp : T → T → bool) (tuples : list T) (ps : list (Z * Z))
     (i j : nat) (ri rj : Z * Z) (a b : T),
     strict_weak_order comp →
     Forall (live_range tuples) ps →
     (i < j)%nat →
     ps !! i = Some ri → ps !! j = Some rj →
     deref tuples ri.1 = Returned a → deref tuples rj.1 = Returned b →
     comp a b = false → comp b a = false →
     ∃ m, min_tuple_range comp tuples ps = Returned m ∧ m ≠ j) ∧
  (∀ (T : Type) (comp : T → T → bool) (parts : list (list T)) (fuel : nat),
     strict_weak_order comp →
     Forall (λ p, p ≠ [] ∧ Sorted (le comp) p) parts →
     Z.of_nat (length (concat parts)) <= INT_MAX →
     (length (concat parts) + 2 ≤ fuel)%nat →
     ∃ st,
       merge_sort (on_row comp) fuel (concat (registered 0 parts))
         ((λ p, Z.of_nat (length p)) <$> parts) (-1) 0 = Returned st ∧
       merge_sort comp fuel (concat parts)
         ((λ p, Z.of_nat (length p)) <$> parts) (-1) 0 = Returned (map_state fst st) ∧
       output_table st ≡ₚ concat (registered 0 parts) ∧
       ∀ p q a b,
         (p < q)%nat →
         output_table st !! p = Some a → output_table st !! q = Some b →
         comp b.1 a.1 = false ∧ (comp a.1 b.1 = false → (a.2 ≤ b.2)%nat)) ∧
  (∀ (T : Type) (comp : T → T → bool) (a b : T),
     comp a b = false → comp b a = false →
     ∃ st, merge_sort comp 4 [a; b] [1; 1] (-1) 0 = Returned st ∧
           output_table st = [a; b]) ∧
  (∃ st,
     merge_sort first_field_ascending 4 [(1, "a"); (1, "b")] [1; 1] (-1) 0
       = Returned st ∧
     output_table st = [(1, "a"); (1, "b")]) ∧
  (∃ st,
     merge_sort first_field_ascending 5 [(0, "z"); (1, "b"); (1, "c")] [1; 1; 1] (-1) 0
       = Returned st ∧
     output_table st = [(0, "z"); (1, "b"); (1, "c")]).
Proof.
  split_and!.
  - intros T comp tuples ps Hswo Hne Hlive.
    destruct (min_tuple_range_spec comp tuples ps Hne Hlive)
      as (m & r & x & Hmin & Hm & Hx & Hord).
    destruct (Hord Hswo) as [Hnl Hgt].
    exists m, r, x. split_and!; try done.
    + intros j rj y Hj Hy. rewrite Forall_lookup in Hnl. by eapply Hnl.
    + intros j rj y Hj Hy Hxy. destruct (decide (m ≤ j)%nat) as [|Hjm]; [done|].
      rewrite Forall_lookup in Hgt.
      assert (Hyes : comp x y = true).
      { eapply (Hgt j rj); [rewrite lookup_take_lt by lia; done|done]. }
      congruence.
  - intros T comp tuples ps i j ri rj a b Hswo Hlive Hij Hi Hj Ha Hb _ Hba.
    by eapply min_tuple_range_tie.
  - intros T comp parts fuel Hswo Hparts Hmax Hfuel.
    by apply merge_sort_ties_by_registration.
  - intros T comp a b _ Hba. eexists.
    split; [by apply two_rows_in_registration_order|reflexivity].
  - eexists. split; [vm_compute; reflexivity|reflexivity].
  - eexists. split; [vm_compute; reflexivity|reflexivity].
Qed.

Lemma tie_selects_earlier_partition_witness :
  (∃ m r x,
     min_tuple_range first_field_ascending [(5, "x"); (1, "a"); (1, "b")]
       [(0, 1); (1, 2); (2, 3)] = Returned m ∧
     [(0, 1); (1, 2); (2, 3)] !! m = Some r ∧
     deref [(5, "x"); (1, "a"); (1, "b")] r.1 = Returned x ∧
     (∀ j rj y, [(0, 1); (1, 2); (2, 3)] !! j = Some rj →
                deref [(5, "x"); (1, "a"); (1, "b")] rj.1 = Returned y →
                first_field_ascending y x = false) ∧
     (∀ j rj y, [(0, 1); (1, 2); (2, 3)] !! j = Some rj →
                deref [(5, "x"); (1, "a"); (1, "b")] rj.1 = Returned y →
                first_field_ascending x y = false → (m ≤ j)%nat)) ∧
  (∃ m, min_tuple_range first_field_ascending [(1, "a"); (1, "b")] [(0, 1); (1, 2)]
          = Returned m ∧ m ≠ 1%nat) ∧
  (∃ st,
     merge_sort (on_row first_field_ascending) 5
       (concat (registered 0 [[(0, "z")]; [(1, "b")]; [(1, "c")]]))
       ((λ p, Z.of_nat (length p)) <$> [[(0, "z")]; [(1, "b")]; [(1, "c")]]) (-1) 0
       = Returned st ∧
     merge_sort first_field_ascending 5 (concat [[(0, "z")]; [(1, "b")]; [(1, "c")]])
       ((λ p, Z.of_nat (length p)) <$> [[(0, "z")]; [(1, "b")]; [(1, "c")]]) (-1) 0
       = Returned (map_state fst st) ∧
     output_table st ≡ₚ concat (registered 0 [[(0, "z")]; [(1, "b")]; [(1, "c")]]) ∧
     ∀ p q a b,
       (p < q)%nat →
       output_table st !! p = Some a → output_table st !! q = Some b →
       first_field_ascending b.1 a.1 = false ∧
       (first_field_ascending a.1 b.1 = false → (a.2 ≤ b.2)%nat)) ∧
  (∃ st, merge_sort first_field_ascending 4 [(1, "a"); (1, "b")] [1; 1] (-1) 0
           = Returned st ∧
         output_table st = [(1, "a"); (1, "b")]).
Proof.
  split_and!.
  - apply (proj1 tie_selects_earlier_partition).
    + apply first_field_ascending_strict_weak_order.
    + discriminate.
    + repeat constructor; vm_compute; done.
  - apply (proj1 (proj2 tie_selects_earlier_partition) _ _ _ _ 0%nat 1%nat (0, 1) (1, 2)
             (1, "a") (1, "b")).
    + apply first_field_ascending_strict_weak_order.
    + repeat constructor; vm_compute; done.
    + lia.
    + reflexivity.
    + reflexivity.
    + reflexivity.
    + reflexivity.
    + reflexivity.
    + reflexivity.
  - apply (proj1 (proj2 (proj2 tie_selects_earlier_partition))).
    + apply first_field_ascending_strict_weak_order.
    + repeat constructor; done.
    + vm_compute. discriminate.
    + simpl. lia.
  - apply (proj1 (proj2 (proj2 (proj2 tie_selects_earlier_partition)))); reflexivity.
Defined.

(** C5 as the specification states it does not hold: on the single
    partition [1,2,3] with offset 1 three rows are consumed and the
    countdown is invoked twice; the row skipped for the offset leaves the
    loop through [continue], before [countdownProgress]. *)
Lemma countdown_misses_skipped_rows :
  ¬ (∀ (tuples : list Z) (counts : list Z) (limit offset : Z) (fuel : nat)
       (st : merge_state Z),
       well_formed_input tuples counts →
       merge_sort ascending fuel tuples counts limit offset = Returned st →
       Z.of_nat (pmp st) = consumed tuples st).
Proof.
  intros H.
  assert (Hwf : well_formed_input [1; 2; 3] [3]).
  { split_and!; [by repeat constructor|reflexivity|by vm_compute]. }
  specialize (H [1; 2; 3] [3] (-1) 1 5%nat _ Hwf eq_refl).
  vm_compute in H. discriminate.
Qed.

(** C5, amended: on a well-formed input [merge_sort] returns, and the
    countdown has been invoked exactly once for every row inserted in the
    output table; the rows consumed are those and the rows skipped for the
    offset, which are consumed without a countdown. *)
Theorem countdown_once_per_inserted_row :
  ∀ (T : Type) (comp : T → T → bool) (tuples : list T) (counts : list Z)
    (limit offset : Z) (fuel : nat),
    well_formed_input tuples counts →
    (length tuples + 2 ≤ fuel)%nat →
    ∃ st,
      merge_sort comp fuel tuples counts limit offset = Returned st ∧
      pmp st = length (output_table st) ∧
      consumed tuples st =
        Z.of_nat (pmp st) + Z.min (tupleSkipped st) (Z.max 0 offset).
Proof.
  intros T comp tuples counts limit offset fuel Hwf Hfuel.
  destruct counts as [|c counts].
  { eexists. split; [reflexivity|]. split; [done|].
    destruct Hwf as (_ & Hsum & _). unfold consumed. simpl in *.
    unfold sum_counts in *. simpl in *. lia. }
  destruct (merge_sort_final_state comp tuples (c :: counts) limit offset fuel Hwf)
    as (sel & r & Hr & Hp & _ & Hrun); [done|done|].
  eexists. split; [exact Hrun|].
  pose proof (slice_length tuples r (live_range_wf _ _ Hr)) as Hsl.
  pose proof (Permutation_length Hp) as Hpl. rewrite length_app in Hpl.
  destruct ((limit =? -1) || (0 <? limit)); unfold consumed, sum_counts; simpl.
  - rewrite length_app. split; [done|]. rewrite length_drop. lia.
  - split; [done|]. lia.
Qed.

Lemma countdown_once_per_inserted_row_witness :
  ∃ st,
    merge_sort ascending 5 [1; 2; 3] [3] (-1) 1 = Returned st ∧
    pmp st = length (output_table st) ∧
    consumed [1; 2; 3] st = Z.of_nat (pmp st) + Z.min (tupleSkipped st) (Z.max 0 1).
Proof.
  apply (countdown_once_per_inserted_row Z ascending [1; 2; 3] [3] (-1) 1 5).
  - split_and!; [by repeat constructor|reflexivity|by vm_compute].
  - simpl. lia.
Defined.

(** C6 (single-partition fast path): with a Boundary List of one entry,
    limit -1 and offset 0, [merge_sort] inserts exactly the rows of the
    partition in their staging order, and the general k-way path of the
    specification gives the same rows on the same input. *)
Theorem single_partition_is_identity :
  ∀ (T : Type) (comp : T → T → bool) (tuples : list T) (fuel : nat),
    tuples ≠ [] →
    Z.of_nat (length tuples) <= INT_MAX →
    (length tuples + 2 ≤ fuel)%nat →
    ∃ st,
      merge_sort comp fuel tuples [Z.of_nat (length tuples)] (-1) 0 = Returned st ∧
      output_table st = tuples ∧
      spec_kway_merge comp fuel tuples [Z.of_nat (length tuples)]
        = Returned (output_table st).
Proof.
  intros T comp tuples fuel Hne Hmax Hfuel.
  assert (Hwf : wf_range tuples (0, Z.of_nat (length tuples)))
    by (unfold wf_range; simpl; lia).
  assert (Hsl : slice tuples (0, Z.of_nat (length tuples)) = tuples).
  { unfold slice. simpl. rewrite Z.sub_0_r, Nat2Z.id. apply firstn_all. }
  assert (Hlen : (0 < length tuples)%nat) by (destruct tuples; simpl; [done|lia]).
  destruct fuel as [|fuel]; [lia|].
  eexists. split_and!.
  - assert (Hex : exhausted (0, Z.of_nat (length tuples)) = false)
      by (apply exhausted_false; simpl; lia).
    assert (Hep : erase_pass (initial_state (T:=T) [(0, Z.of_nat (length tuples))]
                                (size_t_of_nat 1))
                  = MergeState [(0, Z.of_nat (length tuples))] 1 0 0 [] 0).
    { unfold erase_pass, initial_state.
      cbn [partitions nonEmptyPartitions erase_exhausted]. by rewrite Hex. }
    unfold merge_sort.
    change (build_partitions 0 [Z.of_nat (length tuples)])
      with ([(0, 0 + Z.of_nat (length tuples))], 0 + Z.of_nat (length tuples)).
    cbv beta iota. rewrite Z.add_0_l, Z.eqb_refl.
    rewrite merge_loop_S. change (length [Z.of_nat (length tuples)]) with 1%nat.
    rewrite Hep. cbn [nonEmptyPartitions]. change (1 =? 1) with true. cbv iota.
    apply (drain_all tuples (-1) 0 fuel _ (0, Z.of_nat (length tuples)) []).
    + reflexivity.
    + exact Hwf.
    + by left.
    + simpl. lia.
    + rewrite Hsl. lia.
  - simpl. by rewrite Hsl.
  - unfold spec_kway_merge.
    change (build_partitions 0 [Z.of_nat (length tuples)]).1
      with [(0, 0 + Z.of_nat (length tuples))].
    rewrite Z.add_0_l, spec_kway_loop_single; [|done|rewrite Hsl; lia].
    simpl. by rewrite Hsl.
Qed.

Lemma single_partition_is_identity_witness :
  ∃ st,
    merge_sort ascending 5 [1; 3; 5] [Z.of_nat (length [1; 3; 5])] (-1) 0 = Returned st ∧
    output_table st = [1; 3; 5] ∧
    spec_kway_merge ascending 5 [1; 3; 5] [Z.of_nat (length [1; 3; 5])]
      = Returned (output_table st).
Proof.
  apply (single_partition_is_identity Z ascending [1; 3; 5] 5).
  - discriminate.
  - vm_compute. discriminate.
  - simpl. lia.
Defined.

(** C7 (Boundary List): when the loading loop is over, every entry of
    [partitionTupleCounts] is strictly positive, there is one entry for
    each call that brought rows and none for a call that brought none,
    and the entries sum to the number of rows staged. The rows must be few
    enough for [int currentTupleCount]. *)
Theorem boundary_list_positive_and_complete :
  ∀ (T : Type) (engine : list (Z * list T)) (fuel : nat),
    Z.of_nat (length (concat (delivered engine))) <= INT_MAX →
    (length engine < fuel)%nat →
    ∃ table counts,
      load_loop fuel engine [] 0 [] = Returned (table, counts) ∧
      table = concat (delivered engine) ∧
      Forall (λ c, 0 < c) counts ∧
      counts = (λ b, Z.of_nat (length b)) <$> filter (λ b, b ≠ []) (delivered engine) ∧
      sum_counts counts = Z.of_nat (length table).
Proof.
  intros T engine fuel Hmax Hfuel.
  pose proof (load_loop_spec engine fuel [] [] Hmax Hfuel) as Hload.
  change (load_loop fuel engine [] 0 [] =
            Returned (concat (delivered engine),
                      (λ b, Z.of_nat (length b)) <$>
                        filter (λ b, b ≠ []) (delivered engine))) in Hload.
  eexists _, _. split; [exact Hload|]. split_and!; try done.
  - apply positive_lengths.
  - apply sum_lengths_filter.
Qed.

Lemma boundary_list_positive_and_complete_witness :
  ∃ table counts,
    load_loop 6 [(1, [1; 3; 5]); (1, []); (1, [2; 4]); (1, [6]); (0, [])] [] 0 []
      = Returned (table, counts) ∧
    table = concat (delivered [(1, [1; 3; 5]); (1, []); (1, [2; 4]); (1, [6]); (0, [])]) ∧
    Forall (λ c, 0 < c) counts ∧
    counts = (λ b, Z.of_nat (length b)) <$>
               filter (λ b, b ≠ [])
                 (delivered [(1, [1; 3; 5]); (1, []); (1, [2; 4]); (1, [6]); (0, [])]) ∧
    sum_counts counts = Z.of_nat (length table).
Proof.
  apply (boundary_list_positive_and_complete Z
           [(1, [1; 3; 5]); (1, []); (1, [2; 4]); (1, [6]); (0, [])] 6).
  - vm_compute. discriminate.
  - simpl. lia.
Defined.

(** C8 (the assertions of [min_tuple_range]): when every entry of the
    Boundary List is strictly positive, at every call of [min_tuple_range]
    the list of partitions is not empty and no partition in it is
    exhausted, so neither assertion fails, on any state at the head of the
    loop and in any run of [merge_sort]. *)
Theorem min_tuple_range_assertions_hold :
  ∀ (T : Type) (comp : T → T → bool) (tuples : list T) (counts : list Z),
    Forall (λ c, 0 < c) counts →
    (counts ≠ [] →
     ∀ st,
       loop_head comp tuples
         (initial_state (build_partitions 0 counts).1 (size_t_of_nat (length counts))) st →
       nonEmptyPartitions (erase_pass st) ≠ 1 →
       partitions (erase_pass st) ≠ [] ∧
       Forall (λ r, r.1 ≠ r.2) (partitions (erase_pass st)) ∧
       ∀ f, min_tuple_range comp tuples (partitions (erase_pass st)) = Failed f →
            ¬ assertion_of_min_tuple_range f) ∧
    (∀ fuel limit offset f,
       merge_sort comp fuel tuples counts limit offset = Failed f →
       ¬ assertion_of_min_tuple_range f).
Proof.
  intros T comp tuples counts Hpos.
  destruct (build_partitions_positive counts 0 Hpos) as [Hlive Hlen].
  assert (Hex : counts ≠ [] →
            ∃ r, r ∈ (build_partitions 0 counts).1 ∧ exhausted r = false).
  { intros Hne. destruct (build_partitions 0 counts).1 as [|r ps] eqn:Hps.
    - destruct counts; simpl in *; [done|lia].
    - exists r. split; [left|]. by apply Forall_inv in Hlive. }
  split.
  - intros Hne st Hst H1.
    edestruct (loop_head_live comp tuples) as [Hn Hl]; [| |exact Hst|];
      [simpl; by rewrite Hlen|by apply Hex|].
    destruct (erase_pass_not_empty st Hl) as [Hnil Hall].
    split_and!; [done| |].
    + eapply Forall_impl; [exact Hall|]. intros r. apply exhausted_false.
    + intros f Hf. apply min_tuple_range_assertions in Hf; [|done..].
      subst. intros [?|?]; congruence.
  - intros fuel limit offset f. unfold merge_sort.
    destruct counts as [|c counts]; [done|].
    destruct (build_partitions 0 (c :: counts)) as [ps last] eqn:Hb.
    case_match.
    + apply merge_loop_assertions; simpl in *; [by rewrite Hlen|by apply Hex].
    + intros [= <-] [?|?]; congruence.
Qed.

Lemma min_tuple_range_assertions_hold_witness :
  (([3; 2; 1] : list Z) ≠ [] →
   ∀ st,
     loop_head ascending [1; 3; 5; 2; 4; 6]
       (initial_state (build_partitions 0 [3; 2; 1]).1 (size_t_of_nat (length [3; 2; 1]))) st →
     nonEmptyPartitions (erase_pass st) ≠ 1 →
     partitions (erase_pass st) ≠ [] ∧
     Forall (λ r, r.1 ≠ r.2) (partitions (erase_pass st)) ∧
     ∀ f, min_tuple_range ascending [1; 3; 5; 2; 4; 6] (partitions (erase_pass st)) = Failed f →
          ¬ assertion_of_min_tuple_range f) ∧
  (∀ fuel limit offset f,
     merge_sort ascending fuel [1; 3; 5; 2; 4; 6] [3; 2; 1] limit offset = Failed f →
     ¬ assertion_of_min_tuple_range f).
Proof.
  apply (min_tuple_range_assertions_hold Z ascending [1; 3; 5; 2; 4; 6] [3; 2; 1]).
  repeat constructor; lia.
Defined.

(** C9 (termination): on a Boundary List whose entries are strictly
    positive and sum to the number of staged rows (few enough for an
    [int]), [merge_sort] returns: the loop [while (true)] ends in the fast
    path after at most one iteration for each row, and every amount of fuel
    from [length tuples + 2] on gives the same final state. *)
Theorem merge_sort_terminates :
  ∀ (T : Type) (comp : T → T → bool) (tuples : list T) (counts : list Z)
    (limit offset : Z),
    well_formed_input tuples counts →
    ∃ st, ∀ fuel,
      (length tuples + 2 ≤ fuel)%nat →
      merge_sort comp fuel tuples counts limit offset = Returned st.
Proof.
  intros T comp tuples counts limit offset Hwf.
  destruct counts as [|c counts]; [by eexists|].
  destruct (merge_sort_final_state comp tuples (c :: counts) limit offset
              (length tuples + 2) Hwf) as (sel & r & _ & _ & _ & Hrun); [done|done|].
  eexists. intros fuel Hfuel. by eapply merge_sort_fuel_le.
Qed.

Lemma merge_sort_terminates_witness :
  ∃ st, ∀ fuel,
    (length [1; 3; 5; 2; 4; 6] + 2 ≤ fuel)%nat →
    merge_sort ascending fuel [1; 3; 5; 2; 4; 6] [3; 2; 1] 3 2 = Returned st.
Proof.
  apply (merge_sort_terminates Z ascending [1; 3; 5; 2; 4; 6] [3; 2; 1] 3 2).
  split_and!; [repeat constructor; lia|reflexivity|by vm_compute].
Defined.

(** C10 (what the limit changes): [tupleCnt] stays 0, so for every input a
    limit of 1 or more gives the run of the unbounded limit -1; a limit of
    0 only leaves out the drain of the fast path: the unbounded run is the
    run with limit 0 followed by that drain, and the rows selected while
    two partitions or more are left are inserted with limit 0 as well. *)
Theorem limit_only_matters_at_zero :
  (∀ (T : Type) (comp : T → T → bool) (fuel : nat) (tuples : list T) (counts : list Z)
     (offset : Z),
     (∀ limit, 1 <= limit →
        merge_sort comp fuel tuples counts limit offset =
        merge_sort comp fuel tuples counts (-1) offset) ∧
     (∀ st, counts ≠ [] →
        merge_sort comp fuel tuples counts (-1) offset = Returned st →
        ∃ st0,
          merge_sort comp fuel tuples counts 0 offset = Returned st0 ∧
          drain fuel tuples (-1) offset st0 = Returned st)) ∧
  (∃ st0,
     merge_sort ascending 8 [1; 3; 5; 2; 4; 6] [3; 2; 1] 0 0 = Returned st0 ∧
     output_table st0 = [1; 2; 3; 4; 5]).
Proof.
  split; [|eexists; split; [vm_compute; reflexivity|reflexivity]].
  intros T comp fuel tuples counts offset. split.
  - intros limit Hl. unfold merge_sort.
    destruct counts as [|c counts]; [done|].
    destruct (build_partitions 0 (c :: counts)) as [ps last].
    case_match; [|done]. by apply merge_loop_limit_positive.
  - intros st Hne. unfold merge_sort.
    destruct counts as [|c counts]; [done|].
    destruct (build_partitions 0 (c :: counts)) as [ps last].
    case_match; [|done]. by apply merge_loop_limit_zero.
Qed.

Lemma limit_only_matters_at_zero_witness :
  (∀ limit, 1 <= limit →
     merge_sort ascending 8 [1; 3; 5; 2; 4; 6] [3; 2; 1] limit 2 =
     merge_sort ascending 8 [1; 3; 5; 2; 4; 6] [3; 2; 1] (-1) 2) ∧
  (merge_sort ascending 8 [1; 3; 5; 2; 4; 6] [3; 2; 1] 3 2 =
   merge_sort ascending 8 [1; 3; 5; 2; 4; 6] [3; 2; 1] (-1) 2) ∧
  (∃ st0,
     merge_sort ascending 8 [1; 3; 5; 2; 4; 6] [3; 2; 1] 0 2 = Returned st0 ∧
     drain 8 [1; 3; 5; 2; 4; 6] (-1) 2 st0 =
       Returned (MergeState [(6, 6)] 1 0 1 [1; 2; 3; 4; 5] 5)).
Proof.
  split_and!.
  - apply (proj1 limit_only_matters_at_zero Z ascending 8%nat [1; 3; 5; 2; 4; 6] [3; 2; 1] 2).
  - apply (proj1 limit_only_matters_at_zero Z ascending 8%nat [1; 3; 5; 2; 4; 6] [3; 2; 1] 2).
    lia.
  - apply (proj1 limit_only_matters_at_zero Z ascending 8%nat [1; 3; 5; 2; 4; 6] [3; 2; 1] 2).
    + discriminate.
    + vm_compute. reflexivity.
Defined.

(** * Further properties of the code *)

Section MoreFacts.

Context {T : Type}.
Variable comp : T → T → bool.
Variable tuples : list T.

Implicit Types (r : Z * Z) (ps : list (Z * Z)) (st : merge_state T).

(** ** The kinds of failure *)

Lemma build_partitions_last counts : ∀ b,
  (build_partitions b counts).2 = b + sum_counts counts.
Proof.
  induction counts as [|c counts IH]; intros b.
  - unfold sum_counts. simpl. lia.
  - rewrite sum_counts_cons. simpl. specialize (IH (b + c)).
    destruct (build_partitions (b + c) counts) as [ps last]. simpl in *. lia.
Qed.

Lemma min_tuple_range_scan_Failed rest : ∀ i smallest sr f,
  min_tuple_range_scan comp tuples rest i smallest sr = Failed f →
  f = AssertRangeNotExhausted ∨ f = BadDereference.
Proof.
  induction rest as [|r rest IH]; intros i smallest sr f; simpl; [done|].
  destruct (exhausted r); [left; congruence|].
  intros [Hd|(a & Ha & Hd)]%bind_Failed; [right; by eapply deref_Failed|].
  apply bind_Failed in Hd as [Hd|(b & Hb & Hd)]; [right; by eapply deref_Failed|].
  destruct (comp a b); by eapply IH.
Qed.

Lemma select_and_emit_Failed_kind st f :
  select_and_emit comp tuples st = Failed f →
  f = AssertPartitionsNotEmpty ∨ f = AssertRangeNotExhausted ∨ f = BadDereference.
Proof.
  unfold select_and_emit. intros [Hd|(m & Hm & Hd)]%bind_Failed.
  - unfold min_tuple_range in Hd. destruct (partitions st) as [|r rest].
    + left. congruence.
    + right. by eapply min_tuple_range_scan_Failed.
  - destruct (partitions st !! m) as [r|]; [|right; right; congruence].
    apply bind_Failed in Hd as [Hd|(x & Hx & Hd)]; [|done].
    right. right. by eapply deref_Failed.
Qed.

Lemma merge_loop_Failed limit offset fuel : ∀ st f,
  merge_loop comp fuel tuples limit offset st = Failed f → f ≠ AssertLastEnd.
Proof.
  induction fuel as [|fuel IH]; intros st f; [done|]. rewrite merge_loop_S.
  case_match.
  - intros [-> | ->]%drain_Failed; done.
  - intros [Hd|(st2 & Hsel & Hd)]%bind_Failed; [|by eapply IH].
    apply select_and_emit_Failed_kind in Hd as [-> | [-> | ->]]; done.
Qed.

(** ** The counters of the fast path *)

Lemma drain_counters limit offset fuel : ∀ st st',
  drain fuel tuples limit offset st = Returned st' →
  tupleCnt st' = tupleCnt st ∧ tupleSkipped st <= tupleSkipped st'.
Proof.
  induction fuel as [|fuel IH]; intros st st'; [done|]. rewrite drain_S.
  destruct (partitions st) as [|r rest]; [done|].
  destruct (negb (exhausted r) && _); [|intros [= <-]; split; [done|lia]].
  intros (x & Hx & Hd)%bind_Returned.
  destruct (tupleSkipped st =? INT_MAX); [done|].
  destruct (tupleSkipped st <? offset); apply IH in Hd as [? ?]; simpl in *; split; lia.
Qed.

Lemma merge_loop_counters limit offset fuel : ∀ st st',
  merge_loop comp fuel tuples limit offset st = Returned st' →
  tupleCnt st' = tupleCnt st ∧ tupleSkipped st <= tupleSkipped st'.
Proof.
  induction fuel as [|fuel IH]; intros st st'; [done|]. rewrite merge_loop_S.
  case_match.
  - intros Hd%drain_counters. by rewrite erase_pass_eq in Hd.
  - intros (st2 & Hsel & Hrun)%bind_Returned.
    apply select_and_emit_Returned in Hsel as (m & r & x & _ & _ & _ & ->).
    apply IH in Hrun. rewrite erase_pass_eq in Hrun. done.
Qed.

Lemma drain_same_test limit limit' offset fuel : ∀ st,
  tupleCnt st = 0 →
  (limit =? -1) || (0 <? limit) = (limit' =? -1) || (0 <? limit') →
  drain fuel tuples limit offset st = drain fuel tuples limit' offset st.
Proof.
  induction fuel as [|fuel IH]; intros st Hc Hl; [done|]. rewrite !drain_S.
  destruct (partitions st) as [|r rest]; [done|].
  rewrite Hc, Hl.
  destruct (negb (exhausted r) && _); [|done].
  destruct (deref tuples r.1); [|done..]. cbn [mbind outcome_bind].
  destruct (tupleSkipped st =? INT_MAX); [done|].
  destruct (tupleSkipped st <? offset); by apply IH.
Qed.

Lemma merge_loop_same_test limit limit' offset fuel : ∀ st,
  tupleCnt st = 0 →
  (limit =? -1) || (0 <? limit) = (limit' =? -1) || (0 <? limit') →
  merge_loop comp fuel tuples limit offset st = merge_loop comp fuel tuples limit' offset st.
Proof.
  induction fuel as [|fuel IH]; intros st Hc Hl; [done|]. rewrite !merge_loop_S.
  case_match.
  - apply drain_same_test; [by rewrite erase_pass_tupleCnt|done].
  - destruct (select_and_emit comp tuples (erase_pass st)) as [st2| |] eqn:Hsel; [|done..].
    cbn [mbind outcome_bind].
    apply select_and_emit_Returned in Hsel as (m & r & x & _ & _ & _ & ->).
    apply IH; [|done]. simpl. by rewrite erase_pass_tupleCnt.
Qed.

Lemma drain_offset_nonpositive limit offset fuel : ∀ st,
  0 <= tupleSkipped st → offset <= 0 →
  drain fuel tuples limit offset st = drain fuel tuples limit 0 st.
Proof.
  induction fuel as [|fuel IH]; intros st Hs Ho; [done|]. rewrite !drain_S.
  destruct (partitions st) as [|r rest]; [done|].
  destruct (negb (exhausted r) && _); [|done].
  destruct (deref tuples r.1); [|done..]. cbn [mbind outcome_bind].
  destruct (tupleSkipped st =? INT_MAX); [done|].
  replace (tupleSkipped st <? offset) with false by lia.
  replace (tupleSkipped st <? 0) with false by lia.
  apply IH; simpl; lia.
Qed.

Lemma merge_loop_offset_nonpositive limit offset fuel : ∀ st,
  0 <= tupleSkipped st → offset <= 0 →
  merge_loop comp fuel tuples limit offset st = merge_loop comp fuel tuples limit 0 st.
Proof.
  induction fuel as [|fuel IH]; intros st Hs Ho; [done|]. rewrite !merge_loop_S.
  case_match.
  - apply drain_offset_nonpositive; [by rewrite erase_pass_eq|done].
  - destruct (select_and_emit comp tuples (erase_pass st)) as [st2| |] eqn:Hsel; [|done..].
    cbn [mbind outcome_bind].
    apply select_and_emit_Returned in Hsel as (m & r & x & _ & _ & _ & ->).
    apply IH; [|done]. simpl. by rewrite erase_pass_eq.
Qed.

(** ** Sorted lists and sublists *)

Lemma StronglySorted_sublist (R : T → T → Prop) (l k : list T) :
  k `sublist_of` l → StronglySorted R l → StronglySorted R k.
Proof.
  induction 1 as [|x k l Hs IH|x k l Hs IH]; intros Hl.
  - constructor.
  - apply StronglySorted_inv in Hl as [Hl Hx]. constructor; [by apply IH|].
    apply Forall_forall. intros y Hy. rewrite Forall_forall in Hx.
    apply Hx. by eapply elem_of_sublist.
  - apply StronglySorted_inv in Hl as [Hl _]. by apply IH.
Qed.

(** ** Summary of a run on a well-formed input *)

Lemma merge_sort_summary counts limit offset fuel :
  well_formed_input tuples counts →
  (length tuples + 2 ≤ fuel)%nat →
  ∃ st,
    merge_sort comp fuel tuples counts limit offset = Returned st ∧
    pmp st = length (output_table st) ∧
    output_table st ⊆+ tuples ∧
    (limit = -1 → offset <= 0 → output_table st ≡ₚ tuples) ∧
    (strict_weak_order comp →
     Forall (StronglySorted (le comp)) (split_by_counts tuples counts) →
     StronglySorted (le comp) (output_table st)).
Proof.
  intros Hwf Hfuel. destruct counts as [|c counts].
  { eexists. split; [reflexivity|]. simpl. split_and!.
    - done.
    - apply submseteq_nil_l.
    - intros _ _. destruct Hwf as (_ & Hsum & _).
      destruct tuples; [done|]. unfold sum_counts in Hsum. simpl in Hsum. lia.
    - intros _ _. constructor. }
  destruct (merge_sort_final_state comp tuples (c :: counts) limit offset fuel Hwf)
    as (sel & r & Hr & Hp & Hs & Hrun); [done|done|].
  eexists. split; [exact Hrun|].
  destruct ((limit =? -1) || (0 <? limit)) eqn:Hl; simpl.
  - split_and!.
    + by rewrite length_app.
    + trans (sel ++ slice tuples r); [|by apply Permutation_submseteq].
      apply submseteq_skips_l, sublist_submseteq, sublist_drop.
    + intros _ Ho. replace (Z.to_nat offset) with 0%nat by lia. by rewrite drop_0.
    + intros Hswo Hparts. eapply StronglySorted_sublist; [|by apply Hs].
      apply sublist_app; [done|apply sublist_drop].
  - split_and!.
    + done.
    + trans (sel ++ slice tuples r); [|by apply Permutation_submseteq].
      by apply submseteq_inserts_r.
    + intros ->. done.
    + intros Hswo Hparts. eapply StronglySorted_sublist; [|by apply Hs].
      by apply sublist_inserts_r.
Qed.

(** ** One partition *)

Lemma merge_sort_single limit offset fuel :
  tuples ≠ [] →
  merge_sort comp (S fuel) tuples [Z.of_nat (length tuples)] limit offset =
    drain fuel tuples limit offset
      (MergeState [(0, Z.of_nat (length tuples))] 1 0 0 [] 0).
Proof.
  intros Hne.
  assert (Hlen : (0 < length tuples)%nat) by (destruct tuples; simpl; [done|lia]).
  assert (Hex : exhausted (0, Z.of_nat (length tuples)) = false)
    by (apply exhausted_false; simpl; lia).
  assert (Hep : erase_pass (initial_state (T:=T) [(0, Z.of_nat (length tuples))]
                              (size_t_of_nat 1))
                = MergeState [(0, Z.of_nat (length tuples))] 1 0 0 [] 0).
  { unfold erase_pass, initial_state.
    cbn [partitions nonEmptyPartitions erase_exhausted]. by rewrite Hex. }
  unfold merge_sort.
  change (build_partitions 0 [Z.of_nat (length tuples)])
    with ([(0, 0 + Z.of_nat (length tuples))], 0 + Z.of_nat (length tuples)).
  cbv beta iota. rewrite Z.add_0_l, Z.eqb_refl.
  rewrite merge_loop_S. change (length [Z.of_nat (length tuples)]) with 1%nat.
  rewrite Hep. cbn [nonEmptyPartitions]. change (1 =? 1) with true. by cbv iota.
Qed.

Lemma slice_whole : slice tuples (0, Z.of_nat (length tuples)) = tuples.
Proof. unfold slice. simpl. rewrite Z.sub_0_r, Nat2Z.id. apply firstn_all. Qed.

(** ** The replies after the one that ends the loading *)

Lemma load_loop_stops (pre : list (Z * list T)) loaded b rest : ∀ fuel table previous counts,
  Forall (λ reply, 0 < reply.1) pre →
  loaded <= 0 →
  load_loop fuel (pre ++ (loaded, b) :: rest) table previous counts =
  load_loop fuel (pre ++ [(loaded, b)]) table previous counts.
Proof.
  induction pre as [|[n a] pre IH]; intros fuel table previous counts Hpre Hl;
    (destruct fuel as [|fuel]; [done|]); simpl.
  - replace (0 <? loaded) with false by lia.
    by destruct (negb _).
  - apply Forall_cons in Hpre as [Hn Hpre]. simpl in Hn.
    replace (0 <? n) with true by lia.
    destruct (negb _); by apply IH.
Qed.

Lemma delivered_stops (pre : list (Z * list T)) loaded b :
  Forall (λ reply, 0 < reply.1) pre →
  loaded <= 0 →
  delivered (pre ++ [(loaded, b)]) = (snd <$> pre) ++ [b].
Proof.
  intros Hpre Hl. induction Hpre as [|[n a] pre Hn Hpre IH]; simpl in *.
  - by replace (0 <? loaded) with false by lia.
  - replace (0 <? n) with true by lia. by rewrite IH.
Qed.


(** ** Empty batches and zero entries *)

Lemma concat_all_empty (l : list (list T)) :
  Forall (λ b, b = []) l → concat l = [] ∧ filter (λ b, b ≠ []) l = [].
Proof.
  induction 1 as [|b l -> _ [IH1 IH2]]; [done|]. simpl.
  by rewrite filter_cons_False by (intros ?; done).
Qed.

Lemma build_partitions_zero counts : ∀ b,
  Forall (λ c, c = 0) counts →
  Forall (λ r, r.1 = r.2) (build_partitions b counts).1 ∧
  length (build_partitions b counts).1 = length counts.
Proof.
  induction counts as [|c counts IH]; intros b Hz; simpl; [by split|].
  apply Forall_cons in Hz as [-> Hz].
  destruct (IH (b + 0) Hz) as [IH1 IH2].
  destruct (build_partitions (b + 0) counts) as [ps last]. simpl in *.
  split; [|by f_equal]. constructor; [simpl; lia|done].
Qed.

Lemma filter_all_exhausted ps :
  Forall (λ r, r.1 = r.2) ps → filter (λ r : Z * Z, r.1 ≠ r.2) ps = [].
Proof.
  induction 1 as [|r ps Hr _ IH]; [done|].
  by rewrite filter_cons_False by (intros ?; done).
Qed.


End MoreFacts.

(** X1 (no rows): when every call of the engine appends nothing,
    [p_execute] records no Boundary List entry, [merge_sort] returns at
    once, and the output table stays empty with no countdown, whatever the
    limit node. *)
Theorem p_execute_without_rows :
  ∀ (T : Type) (comp : T → T → bool) (engine : list (Z * list T)) (fuel : nat)
    (m_limit_node : option (Z * Z)),
    Forall (λ b, b = []) (delivered engine) →
    (length engine < fuel)%nat →
    p_execute comp fuel m_limit_node engine = Returned ([], 0%nat).
Proof.
  intros T comp engine fuel m_limit_node Hempty Hfuel.
  destruct (concat_all_empty _ Hempty) as [Hc Hf].
  assert (Hmax : Z.of_nat (length ([] ++ concat (delivered engine))) <= INT_MAX)
    by (rewrite Hc; simpl; unfold INT_MAX; lia).
  pose proof (load_loop_spec engine fuel [] [] Hmax Hfuel) as Hload.
  rewrite Hc, Hf in Hload.
  change (load_loop fuel engine [] 0 [] = Returned ([], [])) in Hload.
  unfold p_execute. destruct m_limit_node as [[limit offset]|];
    rewrite Hload; cbn [mbind outcome_bind]; by rewrite merge_sort_empty.
Qed.

Lemma p_execute_without_rows_witness :
  p_execute ascending 4 (Some (3, 2)) [(1, []); (1, []); (0, [])] = Returned ([], 0%nat).
Proof.
  apply (p_execute_without_rows Z ascending [(1, []); (1, []); (0, [])] 4 (Some (3, 2))).
  - repeat constructor.
  - simpl. lia.
Defined.

(** X2 (a Boundary List of zeros): [merge_sort] called with an empty
    vector and a Boundary List that is not empty but holds only zeros
    erases every partition, finds [nonEmptyPartitions] at 0 and not at 1,
    and calls [min_tuple_range] on the empty list: the assertion
    [!partitions.empty()] fails. The loop has no exit for an empty list. *)
Theorem merge_sort_of_zero_counts_fails :
  ∀ (T : Type) (comp : T → T → bool) (counts : list Z) (limit offset : Z) (fuel : nat),
    counts ≠ [] →
    Forall (λ c, c = 0) counts →
    merge_sort comp (S fuel) [] counts limit offset = Failed AssertPartitionsNotEmpty.
Proof.
  intros T comp counts limit offset fuel Hne Hz.
  destruct (build_partitions_zero counts 0 Hz) as [Hex Hlen].
  pose proof (build_partitions_last counts 0) as Hlast.
  assert (Hsum : sum_counts counts = 0).
  { clear -Hz. induction Hz as [|c counts -> _ IH]; [done|].
    rewrite sum_counts_cons. lia. }
  rewrite Hsum in Hlast. clear Hsum Hz.
  unfold merge_sort. destruct counts as [|c counts]; [done|].
  destruct (build_partitions 0 (c :: counts)) as [ps last]. simpl in Hex, Hlen, Hlast.
  subst last. change (0 + 0 =? Z.of_nat (length [])) with true. cbv iota.
  rewrite merge_loop_S, erase_pass_eq. unfold initial_state.
  cbn [partitions nonEmptyPartitions tupleCnt tupleSkipped output_table pmp].
  pose proof (erase_exhausted_size ps 0) as Hsz. simpl in Hsz.
  replace (length (c :: counts)) with (length ps) by (simpl; lia). rewrite Hsz.
  rewrite erase_exhausted_spec. cbn [fst]. rewrite (filter_all_exhausted _ Hex).
  reflexivity.
Qed.

Lemma merge_sort_of_zero_counts_fails_witness :
  merge_sort ascending 1 [] [0; 0] (-1) 0 = Failed AssertPartitionsNotEmpty.
Proof.
  apply (merge_sort_of_zero_counts_fails Z ascending [0; 0] (-1) 0 0).
  - discriminate.
  - repeat constructor.
Defined.

(** X3 (the assertion on the last range): [merge_sort] fails with the
    assertion of line 112 exactly when the Boundary List is not empty and
    its entries do not sum to the size of the vector; the test is made
    before the loop, so the fuel, the limit and the offset play no part. *)
Theorem last_end_assertion_iff :
  ∀ (T : Type) (comp : T → T → bool) (tuples : list T) (counts : list Z)
    (limit offset : Z) (fuel : nat),
    merge_sort comp fuel tuples counts limit offset = Failed AssertLastEnd ↔
    counts ≠ [] ∧ sum_counts counts ≠ Z.of_nat (length tuples).
Proof.
  intros T comp tuples counts limit offset fuel.
  pose proof (build_partitions_last counts 0) as Hlast.
  unfold merge_sort. destruct counts as [|c counts]; [split; [done|by intros [? _]]|].
  destruct (build_partitions 0 (c :: counts)) as [ps last]. cbn [snd] in Hlast.
  destruct (Z.eqb_spec last (Z.of_nat (length tuples))) as [Heq|Hneq].
  - split.
    + intros Hf. by apply merge_loop_Failed in Hf.
    + intros [_ Hs]. lia.
  - split; [|done]. intros _. split; [done|lia].
Qed.

Lemma last_end_assertion_iff_witness :
  merge_sort ascending 8 [1; 3; 5; 2; 4; 6] [3; 2] (-1) 0 = Failed AssertLastEnd.
Proof.
  apply (last_end_assertion_iff Z ascending [1; 3; 5; 2; 4; 6] [3; 2] (-1) 0 8).
  split; [discriminate|vm_compute; discriminate].
Defined.

(** X4 (one partition, any offset): on a Boundary List of one entry the
    fast path honours the offset: with limit -1 or a limit of 1 or more
    the rows inserted are the staged rows without the first [offset] ones
    (all of them when the offset is not positive); with any other limit
    nothing is inserted. The countdown is invoked once per inserted row. *)
Theorem single_partition_offset :
  ∀ (T : Type) (comp : T → T → bool) (tuples : list T) (limit offset : Z) (fuel : nat),
    tuples ≠ [] →
    Z.of_nat (length tuples) <= INT_MAX →
    (length tuples + 2 ≤ fuel)%nat →
    ∃ st,
      merge_sort comp fuel tuples [Z.of_nat (length tuples)] limit offset = Returned st ∧
      output_table st =
        (if (limit =? -1) || (0 <? limit) then drop (Z.to_nat offset) tuples else []) ∧
      pmp st = length (output_table st).
Proof.
  intros T comp tuples limit offset fuel Hne Hmax Hfuel.
  destruct fuel as [|fuel]; [lia|]. rewrite merge_sort_single by done.
  destruct ((limit =? -1) || (0 <? limit)) eqn:Hl.
  - eexists. split.
    + apply (drain_all tuples limit offset fuel _ (0, Z.of_nat (length tuples)) []).
      * reflexivity.
      * unfold wf_range. simpl. lia.
      * apply orb_true_iff in Hl. destruct Hl; [left|right]; simpl; lia.
      * simpl. lia.
      * rewrite slice_whole. lia.
    + simpl. rewrite Z.sub_0_r, slice_whole. done.
  - apply orb_false_iff in Hl as [Hl1 Hl2]. destruct fuel as [|fuel]; [lia|].
    eexists. split; [apply drain_none; simpl; [done|lia|lia]|]. done.
Qed.

Lemma single_partition_offset_witness :
  ∃ st,
    merge_sort ascending 5 [1; 3; 5] [Z.of_nat (length [1; 3; 5])] 7 2 = Returned st ∧
    output_table st = (if (7 =? -1) || (0 <? 7) then drop (Z.to_nat 2) [1; 3; 5] else []) ∧
    pmp st = length (output_table st).
Proof.
  apply (single_partition_offset Z ascending [1; 3; 5] 7 2 5).
  - discriminate.
  - vm_compute. discriminate.
  - simpl. lia.
Defined.

(** X5 (no row is invented): on a well-formed input, whatever the
    comparator, the order of the rows, the limit and the offset, the rows
    inserted are rows of the vector, none more often than it is staged;
    with limit -1 and an offset that is not positive they are exactly the
    staged rows, reordered, even when the partitions are not sorted. *)
Theorem merge_sort_never_invents_rows :
  ∀ (T : Type) (comp : T → T → bool) (tuples : list T) (counts : list Z)
    (limit offset : Z) (fuel : nat),
    well_formed_input tuples counts →
    (length tuples + 2 ≤ fuel)%nat →
    ∃ st,
      merge_sort comp fuel tuples counts limit offset = Returned st ∧
      output_table st ⊆+ tuples ∧
      (limit = -1 → offset <= 0 → output_table st ≡ₚ tuples).
Proof.
  intros T comp tuples counts limit offset fuel Hwf Hfuel.
  destruct (merge_sort_summary comp tuples counts limit offset fuel Hwf Hfuel)
    as (st & Hrun & _ & Hsub & Hperm & _).
  eauto.
Qed.

Lemma merge_sort_never_invents_rows_witness :
  ∃ st,
    merge_sort ascending 8 [5; 3; 1; 4; 2; 6] [3; 2; 1] (-1) (-4) = Returned st ∧
    output_table st ⊆+ [5; 3; 1; 4; 2; 6] ∧
    (-1 = -1 → -4 <= 0 → output_table st ≡ₚ [5; 3; 1; 4; 2; 6]).
Proof.
  apply (merge_sort_never_invents_rows Z ascending [5; 3; 1; 4; 2; 6] [3; 2; 1] (-1) (-4) 8).
  - split_and!; [repeat constructor; lia|reflexivity|by vm_compute].
  - simpl. lia.
Defined.

(** X6 (sorted whatever the limit and the offset): when the comparator
    is a strict weak ordering and every partition is sorted, the rows
    inserted by [merge_sort] are sorted for every limit and every offset:
    the offset only removes rows of the last partition, the limit only the
    whole drain. *)
Theorem merge_sort_output_always_sorted :
  ∀ (T : Type) (comp : T → T → bool) (parts : list (list T)) (limit offset : Z)
    (fuel : nat),
    strict_weak_order comp →
    Forall (λ p, p ≠ [] ∧ Sorted (le comp) p) parts →
    Z.of_nat (length (concat parts)) <= INT_MAX →
    (length (concat parts) + 2 ≤ fuel)%nat →
    ∃ st,
      merge_sort comp fuel (concat parts) ((λ p, Z.of_nat (length p)) <$> parts)
        limit offset = Returned st ∧
      Sorted (le comp) (output_table st).
Proof.
  intros T comp parts limit offset fuel Hswo Hparts Hmax Hfuel.
  pose proof (le_transitive comp Hswo) as Htrans.
  assert (Hwf : well_formed_input (concat parts) ((λ p, Z.of_nat (length p)) <$> parts)).
  { split_and!; [|apply sum_counts_lengths|done].
    apply Forall_fmap. eapply Forall_impl; [exact Hparts|].
    intros q [Hq _]. destruct q; simpl; [done|lia]. }
  destruct (merge_sort_summary comp _ _ limit offset fuel Hwf Hfuel)
    as (st & Hrun & _ & _ & _ & Hsorted).
  exists st. split; [done|].
  apply StronglySorted_Sorted, Hsorted; [done|].
  rewrite split_by_counts_concat.
  eapply Forall_impl; [exact Hparts|]. intros q [_ Hq].
  by apply Sorted_StronglySorted.
Qed.

Lemma merge_sort_output_always_sorted_witness :
  ∃ st,
    merge_sort ascending 8 (concat [[1; 3; 5]; [2; 4]; [6]])
      ((λ p, Z.of_nat (length p)) <$> [[1; 3; 5]; [2; 4]; [6]]) 3 2 = Returned st ∧
    Sorted (le ascending) (output_table st).
Proof.
  apply (merge_sort_output_always_sorted Z ascending [[1; 3; 5]; [2; 4]; [6]] 3 2 8).
  - apply ascending_strict_weak_order.
  - repeat constructor; done.
  - vm_compute. discriminate.
  - simpl. lia.
Defined.

(** X7 (the countdowns of [p_execute]): for every limit node, [p_execute]
    returns, the rows of its output table are staged rows, and the
    countdown has been invoked once for every row unloaded from the input
    table and once more for every row inserted in the output table. *)
Theorem p_execute_countdowns :
  ∀ (T : Type) (comp : T → T → bool) (engine : list (Z * list T))
    (m_limit_node : option (Z * Z)) (fuel : nat),
    Z.of_nat (length (concat (delivered engine))) <= INT_MAX →
    (length engine < fuel)%nat →
    (length (concat (delivered engine)) + 2 ≤ fuel)%nat →
    ∃ out n,
      p_execute comp fuel m_limit_node engine = Returned (out, n) ∧
      out ⊆+ concat (delivered engine) ∧
      n = (length (concat (delivered engine)) + length out)%nat.
Proof.
  intros T comp engine m_limit_node fuel Hmax Hf1 Hf2.
  pose proof (load_loop_spec engine fuel [] [] Hmax Hf1) as Hload.
  change (load_loop fuel engine [] 0 [] =
            Returned (concat (delivered engine),
                      (λ b, Z.of_nat (length b)) <$>
                        filter (λ b, b ≠ []) (delivered engine))) in Hload.
  assert (Hwf : well_formed_input (concat (delivered engine))
                  ((λ b, Z.of_nat (length b)) <$> filter (λ b, b ≠ []) (delivered engine))).
  { split_and!; [apply positive_lengths|apply sum_lengths_filter|done]. }
  unfold p_execute.
  destruct m_limit_node as [[limit offset]|]; rewrite Hload; cbn [mbind outcome_bind].
  - destruct (merge_sort_summary comp _ _ limit offset fuel Hwf Hf2)
      as (st & Hrun & Hpmp & Hsub & _).
    rewrite Hrun. cbn [mbind outcome_bind]. rewrite Hpmp. eauto.
  - destruct (merge_sort_summary comp _ _ (-1) 0 fuel Hwf Hf2)
      as (st & Hrun & Hpmp & Hsub & _).
    rewrite Hrun. cbn [mbind outcome_bind]. rewrite Hpmp. eauto.
Qed.

Lemma p_execute_countdowns_witness :
  ∃ out n,
    p_execute ascending 8 (Some (3, 2))
      [(1, [1; 3; 5]); (1, []); (1, [2; 4]); (1, [6]); (0, [])] = Returned (out, n) ∧
    out ⊆+ concat (delivered [(1, [1; 3; 5]); (1, []); (1, [2; 4]); (1, [6]); (0, [])]) ∧
    n = Nat.add
          (length (concat (delivered
                     [(1, [1; 3; 5]); (1, []); (1, [2; 4]); (1, [6]); (0, [])])))
          (length out).
Proof.
  apply (p_execute_countdowns Z ascending
           [(1, [1; 3; 5]); (1, []); (1, [2; 4]); (1, [6]); (0, [])] (Some (3, 2)) 8).
  - vm_compute. discriminate.
  - simpl. lia.
  - simpl. lia.
Defined.

(** X8 (the selected row is a minimum): on a list of partitions that is
    not empty, none of them exhausted, under a strict weak ordering,
    [min_tuple_range] returns a position of the list; no row at a cursor
    compares less than the row at the cursor of that position, and that
    row compares less than the row at the cursor of every earlier
    position. *)
Theorem min_tuple_range_selects_minimum :
  ∀ (T : Type) (comp : T → T → bool) (tuples : list T) (ps : list (Z * Z)),
    strict_weak_order comp →
    ps ≠ [] →
    Forall (live_range tuples) ps →
    ∃ m r x,
      min_tuple_range comp tuples ps = Returned m ∧
      ps !! m = Some r ∧
      deref tuples r.1 = Returned x ∧
      (∀ j rj y, ps !! j = Some rj → deref tuples rj.1 = Returned y → comp y x = false) ∧
      (∀ j rj y, (j < m)%nat → ps !! j = Some rj → deref tuples rj.1 = Returned y →
                 comp x y = true).
Proof.
  intros T comp tuples ps Hswo Hne Hlive.
  destruct (min_tuple_range_spec comp tuples ps Hne Hlive)
    as (m & r & x & Hmin & Hm & Hx & Hord).
  destruct (Hord Hswo) as [Hnl Hgt].
  exists m, r, x. split_and!; try done.
  - intros j rj y Hj Hy. rewrite Forall_lookup in Hnl. by eapply Hnl.
  - intros j rj y Hjm Hj Hy. rewrite Forall_lookup in Hgt.
    eapply (Hgt j rj); [by rewrite lookup_take_lt|done].
Qed.

Lemma min_tuple_range_selects_minimum_witness :
  ∃ m r x,
    min_tuple_range ascending [3; 5; 1; 4; 2] [(0, 2); (2, 4); (4, 5)] = Returned m ∧
    [(0, 2); (2, 4); (4, 5)] !! m = Some r ∧
    deref [3; 5; 1; 4; 2] r.1 = Returned x ∧
    (∀ j rj y, [(0, 2); (2, 4); (4, 5)] !! j = Some rj →
               deref [3; 5; 1; 4; 2] rj.1 = Returned y → ascending y x = false) ∧
    (∀ j rj y, (j < m)%nat → [(0, 2); (2, 4); (4, 5)] !! j = Some rj →
               deref [3; 5; 1; 4; 2] rj.1 = Returned y → ascending x y = true).
Proof.
  apply (min_tuple_range_selects_minimum Z ascending [3; 5; 1; 4; 2]
           [(0, 2); (2, 4); (4, 5)]).
  - apply ascending_strict_weak_order.
  - discriminate.
  - repeat constructor; vm_compute; done.
Defined.

(** X9 (the Boundary List gives the batches back): the ranges that
    [merge_sort] carves out of the staged rows with the Boundary List of
    the loading loop hold, range by range and in order, exactly the
    batches that brought rows; the last range ends where the vector ends,
    so the assertion of line 112 holds. *)
Theorem boundary_list_carves_the_batches :
  ∀ (T : Type) (engine : list (Z * list T)) (fuel : nat),
    Z.of_nat (length (concat (delivered engine))) <= INT_MAX →
    (length engine < fuel)%nat →
    ∃ table counts,
      load_loop fuel engine [] 0 [] = Returned (table, counts) ∧
      slice table <$> (build_partitions 0 counts).1 =
        filter (λ b, b ≠ []) (delivered engine) ∧
      (build_partitions 0 counts).2 = Z.of_nat (length table).
Proof.
  intros T engine fuel Hmax Hfuel.
  pose proof (load_loop_spec engine fuel [] [] Hmax Hfuel) as Hload.
  change (load_loop fuel engine [] 0 [] =
            Returned (concat (delivered engine),
                      (λ b, Z.of_nat (length b)) <$>
                        filter (λ b, b ≠ []) (delivered engine))) in Hload.
  eexists _, _. split; [exact Hload|].
  pose proof (sum_lengths_filter (delivered engine)) as Hsum.
  destruct (build_partitions_spec (concat (delivered engine))
              ((λ b, Z.of_nat (length b)) <$> filter (λ b, b ≠ []) (delivered engine)) 0)
    as (Hlast & _ & _ & Hsl); [lia|apply positive_lengths|lia|].
  split; [|lia].
  rewrite Hsl, drop_0. rewrite <- (concat_filter_nonempty (delivered engine)).
  apply split_by_counts_concat.
Qed.

Lemma boundary_list_carves_the_batches_witness :
  ∃ table counts,
    load_loop 6 [(1, [1; 3; 5]); (1, []); (1, [2; 4]); (1, [6]); (0, [])] [] 0 []
      = Returned (table, counts) ∧
    slice table <$> (build_partitions 0 counts).1 =
      filter (λ b, b ≠ [])
        (delivered [(1, [1; 3; 5]); (1, []); (1, [2; 4]); (1, [6]); (0, [])]) ∧
    (build_partitions 0 counts).2 = Z.of_nat (length table).
Proof.
  apply (boundary_list_carves_the_batches Z
           [(1, [1; 3; 5]); (1, []); (1, [2; 4]); (1, [6]); (0, [])] 6).
  - vm_compute. discriminate.
  - simpl. lia.
Defined.

(** X10 (the call that ends the loading): the loop is a [do ... while],
    so the rows appended by the first call that does not return a positive
    value are staged and get their Boundary List entry like the others;
    nothing is asked of the engine after that call. *)
Theorem last_reply_is_staged :
  ∀ (T : Type) (pre rest : list (Z * list T)) (loaded : Z) (b : list T) (fuel : nat),
    Forall (λ reply, 0 < reply.1) pre →
    loaded <= 0 →
    Z.of_nat (length (concat (snd <$> pre) ++ b)) <= INT_MAX →
    (length pre + 1 < fuel)%nat →
    load_loop fuel (pre ++ (loaded, b) :: rest) [] 0 [] =
      Returned (concat (snd <$> pre) ++ b,
                (λ a, Z.of_nat (length a)) <$>
                  filter (λ a, a ≠ []) ((snd <$> pre) ++ [b])).
Proof.
  intros T pre rest loaded b fuel Hpre Hl Hmax Hfuel.
  rewrite load_loop_stops by done.
  pose proof (delivered_stops pre loaded b Hpre Hl) as Hd.
  pose proof (load_loop_spec (pre ++ [(loaded, b)]) fuel [] []) as Hload.
  rewrite Hd, concat_app in Hload. simpl in Hload. rewrite app_nil_r in Hload.
  apply Hload; [done|]. rewrite length_app. simpl. lia.
Qed.

Lemma last_reply_is_staged_witness :
  load_loop 3 ([(1, [1; 3])] ++ (0, [2; 4]) :: [(1, [6])]) [] 0 [] =
    Returned (concat (snd <$> [(1, [1; 3])]) ++ [2; 4],
              (λ a, Z.of_nat (length a)) <$>
                filter (λ a, a ≠ []) ((snd <$> [(1, [1; 3])]) ++ [[2; 4]])).
Proof.
  apply (last_reply_is_staged Z [(1, [1; 3])] [(1, [6])] 0 [2; 4] 3).
  - repeat constructor.
  - lia.
  - vm_compute. discriminate.
  - simpl. lia.
Defined.

(** X11 (a limit below -1): only -1 stands for the unbounded limit; any
    other negative limit makes the test of the fast path fail like the
    limit 0, on every input. *)
Theorem limit_below_minus_one_is_zero :
  ∀ (T : Type) (comp : T → T → bool) (fuel : nat) (tuples : list T) (counts : list Z)
    (limit offset : Z),
    limit < -1 →
    merge_sort comp fuel tuples counts limit offset =
    merge_sort comp fuel tuples counts 0 offset.
Proof.
  intros T comp fuel tuples counts limit offset Hl. unfold merge_sort.
  destruct counts as [|c counts]; [done|].
  destruct (build_partitions 0 (c :: counts)) as [ps last].
  case_match; [|done]. apply merge_loop_same_test; [done|].
  replace (limit =? -1) with false by lia. by replace (0 <? limit) with false by lia.
Qed.

Lemma limit_below_minus_one_is_zero_witness :
  merge_sort ascending 8 [1; 3; 5; 2; 4; 6] [3; 2; 1] (-7) 0 =
  merge_sort ascending 8 [1; 3; 5; 2; 4; 6] [3; 2; 1] 0 0.
Proof.
  apply (limit_below_minus_one_is_zero Z ascending 8 [1; 3; 5; 2; 4; 6] [3; 2; 1] (-7) 0).
  lia.
Defined.

(** X12 (an offset that is not positive): [tupleSkipped] starts at 0 and
    only grows, so with an offset of 0 or less no row is ever skipped: the
    run is the run of the offset 0, on every input. *)
Theorem nonpositive_offset_is_zero :
  ∀ (T : Type) (comp : T → T → bool) (fuel : nat) (tuples : list T) (counts : list Z)
    (limit offset : Z),
    offset <= 0 →
    merge_sort comp fuel tuples counts limit offset =
    merge_sort comp fuel tuples counts limit 0.
Proof.
  intros T comp fuel tuples counts limit offset Ho. unfold merge_sort.
  destruct counts as [|c counts]; [done|].
  destruct (build_partitions 0 (c :: counts)) as [ps last].
  case_match; [|done]. by apply merge_loop_offset_nonpositive.
Qed.

Lemma nonpositive_offset_is_zero_witness :
  merge_sort ascending 8 [1; 3; 5; 2; 4; 6] [3; 2; 1] (-1) (-3) =
  merge_sort ascending 8 [1; 3; 5; 2; 4; 6] [3; 2; 1] (-1) 0.
Proof.
  apply (nonpositive_offset_is_zero Z ascending 8 [1; 3; 5; 2; 4; 6] [3; 2; 1] (-1) (-3)).
  lia.
Defined.

(** X13 (the erase pass): when [nonEmptyPartitions] is the size of the
    list, the erase pass leaves the partitions that are not exhausted, in
    their registration order, and [nonEmptyPartitions] is again the size
    of the list; the rows still to be consumed, the output table and the
    countdown are untouched. *)
Theorem erase_pass_keeps_live_partitions :
  ∀ (T : Type) (tuples : list T) (st : merge_state T),
    nonEmptyPartitions st = size_t_of_nat (length (partitions st)) →
    partitions (erase_pass st) = filter (λ r, r.1 ≠ r.2) (partitions st) ∧
    nonEmptyPartitions (erase_pass st) =
      size_t_of_nat (length (partitions (erase_pass st))) ∧
    remaining tuples (partitions (erase_pass st)) = remaining tuples (partitions st) ∧
    output_table (erase_pass st) = output_table st ∧
    pmp (erase_pass st) = pmp st.
Proof.
  intros T tuples st Hn. rewrite erase_pass_eq. simpl.
  pose proof (erase_exhausted_size (partitions st) 0) as Hsz.
  simpl in Hsz. rewrite <- Hn in Hsz.
  split_and!; try done.
  - by rewrite erase_exhausted_spec.
  - apply erase_exhausted_remaining.
Qed.

Lemma erase_pass_keeps_live_partitions_witness :
  partitions (erase_pass (MergeState [(3, 3); (3, 5); (6, 6)] 3 0 0 [1; 2; 3] 3)) =
    filter (λ r, r.1 ≠ r.2) [(3, 3); (3, 5); (6, 6)] ∧
  nonEmptyPartitions (erase_pass (MergeState [(3, 3); (3, 5); (6, 6)] 3 0 0 [1; 2; 3] 3)) =
    size_t_of_nat
      (length (partitions (erase_pass (MergeState [(3, 3); (3, 5); (6, 6)] 3 0 0 [1; 2; 3] 3)))) ∧
  remaining [1; 3; 5; 2; 4; 6]
    (partitions (erase_pass (MergeState [(3, 3); (3, 5); (6, 6)] 3 0 0 [1; 2; 3] 3))) =
    remaining [1; 3; 5; 2; 4; 6] [(3, 3); (3, 5); (6, 6)] ∧
  output_table (erase_pass (MergeState [(3, 3); (3, 5); (6, 6)] 3 0 0 [1; 2; 3] 3)) =
    [1; 2; 3] ∧
  pmp (erase_pass (MergeState [(3, 3); (3, 5); (6, 6)] 3 0 0 [1; 2; 3] 3)) = 3%nat.
Proof.
  apply (erase_pass_keeps_live_partitions Z [1; 3; 5; 2; 4; 6]
           (MergeState [(3, 3); (3, 5); (6, 6)] 3 0 0 [1; 2; 3] 3)).
  reflexivity.
Defined.



(** X15 (the counters of a run): in every final state of [merge_sort], on
    any input, [tupleCnt] is 0, as nothing ever increments it, and
    [tupleSkipped] is not negative. *)
Theorem counters_of_a_run :
  ∀ (T : Type) (comp : T → T → bool) (fuel : nat) (tuples : list T) (counts : list Z)
    (limit offset : Z) (st : merge_state T),
    merge_sort comp fuel tuples counts limit offset = Returned st →
    tupleCnt st = 0 ∧ 0 <= tupleSkipped st.
Proof.
  intros T comp fuel tuples counts limit offset st. unfold merge_sort.
  destruct counts as [|c counts]; [by intros [= <-]|].
  destruct (build_partitions 0 (c :: counts)) as [ps last].
  case_match; [|done]. intros [Hc Hs]%merge_loop_counters. simpl in *. done.
Qed.

Lemma counters_of_a_run_witness :
  tupleCnt (MergeState (T:=Z) [(6, 6)] 1 0 1 [1; 2; 3; 4; 5] 5) = 0 ∧
  0 <= tupleSkipped (MergeState (T:=Z) [(6, 6)] 1 0 1 [1; 2; 3; 4; 5] 5).
Proof.
  apply (counters_of_a_run Z ascending 8 [1; 3; 5; 2; 4; 6] [3; 2; 1] 3 2).
  vm_compute. reflexivity.
Defined.

(** X16 (how many rows the offset removes): on a well-formed input, with
    limit -1 or a limit of 1 or more and an offset that is not negative,
    at most [offset] rows are left out of the output table: the offset is
    applied to the rows of the last partition only, and removes no more
    than it says. *)
Theorem offset_removes_at_most_offset_rows :
  ∀ (T : Type) (comp : T → T → bool) (tuples : list T) (counts : list Z)
    (limit offset : Z) (fuel : nat),
    well_formed_input tuples counts →
    (length tuples + 2 ≤ fuel)%nat →
    limit = -1 ∨ 1 <= limit →
    0 <= offset →
    ∃ st,
      merge_sort comp fuel tuples counts limit offset = Returned st ∧
      Z.of_nat (length tuples) - offset <= Z.of_nat (length (output_table st)) ∧
      (length (output_table st) ≤ length tuples)%nat.
Proof.
  intros T comp tuples counts limit offset fuel Hwf Hfuel Hl Ho.
  destruct counts as [|c counts].
  { eexists. split; [reflexivity|]. simpl.
    destruct Hwf as (_ & Hsum & _). unfold sum_counts in Hsum. simpl in Hsum. lia. }
  destruct (merge_sort_final_state comp tuples (c :: counts) limit offset fuel Hwf)
    as (sel & r & Hr & Hp & _ & Hrun); [done|done|].
  replace ((limit =? -1) || (0 <? limit)) with true in Hrun
    by (symmetry; apply orb_true_iff; destruct Hl; [left|right]; lia).
  eexists. split; [exact Hrun|]. simpl.
  apply Permutation_length in Hp. rewrite length_app in Hp.
  rewrite length_app, length_drop. lia.
Qed.

Lemma offset_removes_at_most_offset_rows_witness :
  ∃ st,
    merge_sort ascending 8 [1; 3; 5; 2; 4; 6] [3; 2; 1] 3 2 = Returned st ∧
    Z.of_nat (length [1; 3; 5; 2; 4; 6]) - 2 <= Z.of_nat (length (output_table st)) ∧
    (length (output_table st) ≤ length [1; 3; 5; 2; 4; 6])%nat.
Proof.
  apply (offset_removes_at_most_offset_rows Z ascending [1; 3; 5; 2; 4; 6] [3; 2; 1] 3 2 8).
  - split_and!; [repeat constructor; lia|reflexivity|by vm_compute].
  - simpl. lia.
  - right. lia.
  - lia.
Defined.
